(** * Authentication and abuse detection of the jokes API

    A shallow embedding of [app/auth.py] and [app/middleware.py]:
    the two credential checks, the sliding-window failure tracker and the
    request-logging middleware, with the properties their specification
    states about them. *)

From Stdlib Require Import ZArith QArith Qround Lqa String Ascii.
From stdpp Require Import gmap strings list fin_maps sorting pretty.

Open Scope string_scope.
Open Scope list_scope.

(** ** Python values shared by both modules *)

(** The two exceptions the modelled code can see: FastAPI's
    [HTTPException(status_code, detail)] and the [TypeError] that
    [secrets.compare_digest] raises. *)
Inductive exn :=
| HTTPException (status_code : Z) (detail : string)
| TypeError (msg : string).

(** A call either returns a value or raises. *)
Inductive result (A : Type) :=
| Return (a : A)
| Raise (e : exn).
Arguments Return {A} a.
Arguments Raise {A} e.

(** A header value reaches the application decoded as latin-1, one
    character per byte, which is exactly what [string] holds.  A [str] is
    ASCII when every character is below 128. *)
Definition isascii (s : string) : bool :=
  forallb (fun c => (N_of_ascii c <? 128)%N) (list_ascii_of_string s).

(** [secrets.compare_digest] on two [str]: a [TypeError] unless both are
    ASCII, and otherwise their equality. *)
Definition compare_digest (a b : string) : result bool :=
  if isascii a && isascii b then Return (String.eqb a b)
  else Raise (TypeError "comparing strings with non-ASCII characters is not supported").

(** ** app/auth.py *)
Module Auth.

Definition HTTP_401_UNAUTHORIZED : Z := 401.
Definition HTTP_403_FORBIDDEN : Z := 403.
Definition HTTP_503_SERVICE_UNAVAILABLE : Z := 503.

(** A row of the [api_keys] table (app/models.py). *)
Record APIKey := {
  id : Z;
  key_hash : string;
  name : string;
  is_active : bool;
  created_at : Z
}.

#[global] Instance APIKey_eq_dec : EqDecision APIKey.
Proof. solve_decision. Defined.

(** The column [key_hash] is declared [unique=True]. *)
Definition unique_key_hash (db : list APIKey) : Prop :=
  NoDup (key_hash <$> db).

(** [db.query(APIKey).filter(APIKey.key_hash == h, APIKey.is_active.is_(True)).first()] *)
Definition query_first (db : list APIKey) (h : string) : option APIKey :=
  head (filter (fun k => key_hash k = h ∧ is_active k = true) db).

Section Authenticator.

(** [hashlib.sha256(key.encode()).hexdigest()], a function of the library. *)
Variable sha256_hexdigest : string -> string.

Definition hash_api_key (key : string) : string := sha256_hexdigest key.

Definition verify_api_key (api_key : option string) (db : list APIKey)
  : result APIKey :=
  match api_key with
  | None | Some "" =>
      Raise (HTTPException HTTP_401_UNAUTHORIZED
               "Missing API key. Provide X-API-Key header.")
  | Some key =>
      let key_hash := hash_api_key key in
      match query_first db key_hash with
      | None =>
          Raise (HTTPException HTTP_403_FORBIDDEN
                   "Invalid or deactivated API key.")
      | Some db_key => Return db_key
      end
  end.

End Authenticator.

(** [ADMIN_SECRET] is read from the environment when the module is loaded
    ([""] when the variable is unset); it is an argument here. *)
Definition verify_admin_secret (ADMIN_SECRET : string) (api_key : option string)
  : result string :=
  match ADMIN_SECRET with
  | "" =>
      Raise (HTTPException HTTP_503_SERVICE_UNAVAILABLE
               "Admin secret not configured on server.")
  | _ =>
      match api_key with
      | None | Some "" =>
          Raise (HTTPException HTTP_401_UNAUTHORIZED
                   "Missing admin secret. Provide X-API-Key header.")
      | Some key =>
          match compare_digest key ADMIN_SECRET with
          | Raise e => Raise e
          | Return false =>
              Raise (HTTPException HTTP_403_FORBIDDEN "Invalid admin secret.")
          | Return true => Return key
          end
      end
  end.

(** The three failures of the admin gate, and a table row for examples. *)
Definition not_configured : result string :=
  Raise (HTTPException 503 "Admin secret not configured on server.").
Definition missing_admin : result string :=
  Raise (HTTPException 401 "Missing admin secret. Provide X-API-Key header.").
Definition invalid_admin : result string :=
  Raise (HTTPException 403 "Invalid admin secret.").

Definition key_row (i : Z) (h : string) (active : bool) : APIKey :=
  {| id := i; key_hash := h; name := "ci"; is_active := active; created_at := 0 |}.

End Auth.

(** ** app/middleware.py *)
Module Middleware.

(** *** Starlette's requests, responses and headers *)

(** Header names are compared in lower case; the names the middleware uses
    are ASCII, so lowering ASCII letters is all [str.lower] does to them. *)
Definition lower_ascii (c : ascii) : ascii :=
  let n := N_of_ascii c in
  if (65 <=? n)%N && (n <=? 90)%N then ascii_of_N (n + 32) else c.

Fixpoint lower (s : string) : string :=
  match s with
  | EmptyString => EmptyString
  | String c s' => String (lower_ascii c) (lower s')
  end.

(** The raw header list of a request or response: (lower-case name, value)
    pairs in the order they were received. *)
Definition Headers := list (string * string).

(** [Headers.get(key, default)]: the value of the first header of that
    name, [default] when there is none. *)
Definition headers_get (h : Headers) (key default : string) : string :=
  match List.find (fun kv => String.eqb (fst kv) (lower key)) h with
  | Some kv => snd kv
  | None => default
  end.

Fixpoint replace_first (k v : string) (h : Headers) : Headers :=
  match h with
  | [] => []
  | kv :: t =>
      if String.eqb (fst kv) k
      then (k, v) :: filter (fun kv' => fst kv' ≠ k) t
      else kv :: replace_first k v t
  end.

(** [MutableHeaders.__setitem__]: the first header of that name takes the
    value and later ones are removed; the header is appended when new. *)
Definition headers_set (h : Headers) (key value : string) : Headers :=
  let k := lower key in
  if existsb (fun kv => String.eqb (fst kv) k) h
  then replace_first k value h
  else h ++ [(k, value)].

Record Request := {
  method : string;
  path : string;                      (* request.url.path *)
  headers : Headers;
  client : option (string * Z);       (* request.client: (host, port) *)
  state_request_id : option string    (* request.state.request_id *)
}.

Record Response := {
  status_code : Z;
  response_headers : Headers;
  body : string
}.

Definition set_request_id (request : Request) (request_id : string) : Request :=
  {| method := method request; path := path request;
     headers := headers request; client := client request;
     state_request_id := Some request_id |}.

Definition set_response_header (response : Response) (key value : string)
  : Response :=
  {| status_code := status_code response;
     response_headers := headers_set (response_headers response) key value;
     body := body response |}.

(** *** The logger *)

Inductive level := INFO | WARNING | ERROR | CRITICAL.

Inductive value :=
| VStr (s : string)
| VInt (n : Z)
| VFloat (q : Q).

(** One call of [logger.info], [.warning], [.error] or [.critical]: the
    JSON formatter turns each into one line. *)
Record log_call := {
  levelname : level;
  message : string;
  extra : gmap string value
}.

(** [round(x, 2)], on exact rationals: to the nearest hundredth, ties to
    the even one. *)
Definition round_half_even (x : Q) : Z :=
  let f := Qfloor x in
  match (x - inject_Z f ?= 1 # 2)%Q with
  | Lt => f
  | Gt => (f + 1)%Z
  | Eq => if Z.even f then f else (f + 1)%Z
  end.

Definition round2 (x : Q) : Q := (inject_Z (round_half_even (x * 100)) / 100)%Q.

(** *** The failure tracker *)

Definition AUTH_FAILURE_WINDOW : Z := 300.
Definition AUTH_FAILURE_THRESHOLD_IP : nat := 10.
Definition AUTH_FAILURE_THRESHOLD_GLOBAL : nat := 20.

(** Clock readings are seconds, as exact rationals. *)
#[global] Instance Qlt_decision (x y : Q) : Decision (x < y)%Q :=
  match Qlt_le_dec x y with
  | left H => left H
  | right H => right (Qle_not_lt _ _ H)
  end.

(** [_auth_failures]: a [defaultdict(list)] from client address to the
    times of its failures.  Reading a missing key gives the empty list. *)
Definition getitem (d : gmap string (list Q)) (k : string) : list Q :=
  default [] (d !! k).

Definition brute_force_record (client_ip : string) (failure_count : nat)
  : log_call :=
  {| levelname := CRITICAL;
     message := "Possible brute force attack detected";
     extra := <["window_seconds" := VInt AUTH_FAILURE_WINDOW]>
              (<["failure_count" := VInt (Z.of_nat failure_count)]>
              (<["client_ip" := VStr client_ip]>
              (<["event_type" := VStr "brute_force_detected"]> ∅))) |}.

Definition spray_record (total_failures : nat) : log_call :=
  {| levelname := CRITICAL;
     message := "Possible credential spray attack detected";
     extra := <["window_seconds" := VInt AUTH_FAILURE_WINDOW]>
              (<["total_failures" := VInt (Z.of_nat total_failures)]>
              (<["event_type" := VStr "spray_attack_detected"]> ∅)) |}.

(** [sum(len(times) for ip, times in d.items() if any(t > cutoff for t in times))] *)
Definition total_failures (cutoff : Q) (d : gmap string (list Q)) : nat :=
  sum_list ((fun kv => length (snd kv)) <$>
            filter (fun kv => Exists (fun t => (cutoff < t)%Q) (snd kv))
                   (map_to_list d)).

(** [now] is the reading of [time.time()]; the result is the new map and
    the critical records logged, in order. *)
Definition _track_auth_failure (now : Q) (client_ip : string)
    (_auth_failures : gmap string (list Q))
  : gmap string (list Q) * list log_call :=
  let cutoff := (now - inject_Z AUTH_FAILURE_WINDOW)%Q in
  (* Clean old entries and add new one *)
  let d1 := <[client_ip :=
               filter (fun t => (cutoff < t)%Q) (getitem _auth_failures client_ip)]>
            _auth_failures in
  let d2 := <[client_ip := getitem d1 client_ip ++ [now]]> d1 in
  (* Per-IP brute force detection *)
  let log1 :=
    if decide (AUTH_FAILURE_THRESHOLD_IP ≤ length (getitem d2 client_ip))%nat
    then [brute_force_record client_ip (length (getitem d2 client_ip))]
    else [] in
  (* Global spray detection *)
  let total := total_failures cutoff d2 in
  let log2 :=
    if decide (AUTH_FAILURE_THRESHOLD_GLOBAL ≤ total)%nat
    then [spray_record total]
    else [] in
  (d2, log1 ++ log2).

(** *** The middleware *)

(** What one request reads from its environment: the fresh [uuid4], the two
    readings of [time.monotonic()] around the handler, and [time.time()] as
    the tracker reads it. *)
Record Env := {
  uuid4 : string;
  monotonic_start : Q;
  monotonic_end : Q;
  time_now : Q
}.

Definition in_401_403 (status : Z) : bool :=
  (status =? 401)%Z || (status =? 403)%Z.

(** [dispatch]: the new tracker map, the records logged, and the response
    returned or the exception that leaves the middleware. *)
Definition dispatch (env : Env) (request : Request)
    (call_next : Request -> result Response)
    (_auth_failures : gmap string (list Q))
  : gmap string (list Q) * list log_call * result Response :=
  let request_id := uuid4 env in
  let request := set_request_id request request_id in
  let client_ip :=
    headers_get (headers request) "X-Forwarded-For"
      (match client request with
       | Some (host, _) => host
       | None => "unknown"
       end) in
  match call_next request with
  | Raise e => (_auth_failures, [], Raise e)
  | Return response =>
      let duration_ms :=
        round2 ((monotonic_end env - monotonic_start env) * 1000)%Q in
      let log_data : gmap string value :=
        <["event_type" := VStr "http_request"]>
        (<["response_time_ms" := VFloat duration_ms]>
        (<["user_agent" := VStr (headers_get (headers request) "User-Agent" "unknown")]>
        (<["client_ip" := VStr client_ip]>
        (<["status_code" := VInt (status_code response)]>
        (<["path" := VStr (path request)]>
        (<["method" := VStr (method request)]>
        (<["request_id" := VStr request_id]> ∅))))))) in
      let '(d, logs) :=
        (* Detect auth failures (401 or 403) *)
        if in_401_403 (status_code response) then
          let log_data := <["event_type" := VStr "auth_failure"]> log_data in
          let '(d, alerts) :=
            _track_auth_failure (time_now env) client_ip _auth_failures in
          (d, {| levelname := WARNING; message := "Authentication failure";
                 extra := log_data |} :: alerts)
        else if (500 <=? status_code response)%Z then
          let log_data := <["event_type" := VStr "server_error"]> log_data in
          (_auth_failures,
           [{| levelname := ERROR; message := "Server error";
               extra := log_data |}])
        else if (400 <=? status_code response)%Z then
          (_auth_failures,
           [{| levelname := WARNING; message := "Client error";
               extra := log_data |}])
        else
          (_auth_failures,
           [{| levelname := INFO; message := "Request completed";
               extra := log_data |}]) in
      (* Add request ID to response headers for traceability *)
      (d, logs, Return (set_response_header response "X-Request-ID" request_id))
  end.

(** A run of consecutive failures of one client, at the given times: the
    final map and what each call logged. *)
Fixpoint record_all (client_ip : string) (times : list Q)
    (d : gmap string (list Q)) : gmap string (list Q) * list (list log_call) :=
  match times with
  | [] => (d, [])
  | now :: times' =>
      let '(d1, out) := _track_auth_failure now client_ip d in
      let '(d2, outs) := record_all client_ip times' d1 in
      (d2, out :: outs)
  end.

Definition event_type_is (e : string) (r : log_call) : bool :=
  match extra r !! "event_type" with
  | Some (VStr s) => String.eqb s e
  | _ => false
  end.

Definition is_brute_force : log_call -> bool := event_type_is "brute_force_detected".
Definition is_spray : log_call -> bool := event_type_is "spray_attack_detected".

(** *** Vocabulary of the statements *)

(** The cutoff of a call at [now], and what survives its pruning. *)
Definition cutoff_at (now : Q) : Q := (now - inject_Z AUTH_FAILURE_WINDOW)%Q.
Definition pruned (now : Q) (l : list Q) : list Q :=
  filter (fun t => (cutoff_at now < t)%Q) l.

(** The aggregate as the specification words it: the lengths of all the
    sequences, each pruned against the cutoff. *)
Definition pruned_aggregate (cutoff : Q) (d : gmap string (list Q)) : nat :=
  sum_list ((fun kv => length (filter (fun t => (cutoff < t)%Q) (snd kv)))
              <$> map_to_list d).

(** The times 0, 1, ..., n-1. *)
Definition ticks (n : nat) : list Q := (fun k => inject_Z (Z.of_nat k)) <$> seq 0 n.

(** One client fails at each of the times 0 to 17 and once more at time 200. *)
Definition stale_calls : list Q := ticks 18 ++ [200%Q].
Definition stale_map : gmap string (list Q) :=
  fst (record_all "10.0.0.2" stale_calls ∅).

(** The source address as [dispatch] takes it: the value of the first
    [X-Forwarded-For] header, as it stands, and without such a header the
    host of the peer, or ["unknown"] when the transport gives none. *)
Definition source_address (request : Request) : string :=
  match List.find (fun kv => String.eqb (fst kv) "x-forwarded-for") (headers request) with
  | Some kv => snd kv
  | None =>
      match client request with
      | Some (host, _) => host
      | None => "unknown"
      end
  end.

(** The first value of a comma-separated header value, as the
    specification words the source address: the text before the first
    comma, without the spaces around it. *)
Fixpoint before_comma (s : list ascii) : list ascii :=
  match s with
  | [] => []
  | c :: s' => if Ascii.eqb c "," then [] else c :: before_comma s'
  end.

Fixpoint lstrip (s : list ascii) : list ascii :=
  match s with
  | c :: s' => if Ascii.eqb c " " then lstrip s' else s
  | [] => []
  end.

Definition first_forwarded_value (v : string) : string :=
  string_of_list_ascii
    (rev (lstrip (rev (lstrip (before_comma (list_ascii_of_string v)))))).

(** The fields every request record carries, before the event type of the
    branch is set, and the record of a branch. *)
Definition request_fields (env : Env) (request : Request) (response : Response)
  : gmap string value :=
  <["response_time_ms" :=
      VFloat (round2 ((monotonic_end env - monotonic_start env) * 1000))]>
  (<["user_agent" := VStr (headers_get (headers request) "User-Agent" "unknown")]>
  (<["client_ip" := VStr (source_address request)]>
  (<["status_code" := VInt (status_code response)]>
  (<["path" := VStr (path request)]>
  (<["method" := VStr (method request)]>
  (<["request_id" := VStr (uuid4 env)]> ∅)))))).

Definition request_record (lv : level) (msg event_type : string)
    (env : Env) (request : Request) (response : Response) : log_call :=
  {| levelname := lv; message := msg;
     extra := <["event_type" := VStr event_type]> (request_fields env request response) |}.

Definition has_request_id (r : log_call) : bool :=
  match extra r !! "request_id" with Some _ => true | None => false end.

(** A request through a proxy, with a forwarded-for list of two
    addresses, and handlers that answer it or fail. *)
Definition env0 : Env :=
  {| uuid4 := "1b4e28ba-2fa1-4d3b-a3f5-ef19b5a7633b";
     monotonic_start := 10; monotonic_end := 21 # 2; time_now := 1000 |}.

Definition request0 : Request :=
  {| method := "POST"; path := "/jokes";
     headers := [("host", "api.example"); ("x-forwarded-for", "203.0.113.7, 10.0.0.1");
                 ("user-agent", "curl/8.5.0")];
     client := Some ("172.17.0.1", 51234%Z);
     state_request_id := None |}.

Definition respond (status : Z) : Request -> result Response :=
  fun _ => Return {| status_code := status;
                     response_headers := [("content-type", "application/json")];
                     body := "{}" |}.

Definition failing_handler : Request -> result Response :=
  fun _ => Raise (TypeError "unsupported operand").

(** The tracker after 19 failures of the source address of [request0], at
    the times 981 to 999. *)
Definition hot_map : gmap string (list Q) :=
  fst (record_all "203.0.113.7, 10.0.0.1"
         ((fun t => t + 981)%Q <$> ticks 19) ∅).

(** *** Runs of calls and sums over the map *)

(** A run of failures of any clients, each call with its time: the final
    map and what each call logged. *)
Fixpoint record_calls (calls : list (Q * string)) (d : gmap string (list Q))
  : gmap string (list Q) * list (list log_call) :=
  match calls with
  | [] => (d, [])
  | (now, client_ip) :: calls' =>
      let '(d1, out) := _track_auth_failure now client_ip d in
      let '(d2, outs) := record_calls calls' d1 in
      (d2, out :: outs)
  end.

(** The sum of [f] over the sequences of the map, and the number of
    timestamps the map stores. *)
Definition map_sum (f : list Q -> nat) (d : gmap string (list Q)) : nat :=
  sum_list ((fun kv => f (snd kv)) <$> map_to_list d).

Definition stored (d : gmap string (list Q)) : nat := map_sum length d.

(** What one sequence adds to [total_failures]: its whole length when one
    of its timestamps is newer than the cutoff, and nothing otherwise. *)
Definition counted (cutoff : Q) (times : list Q) : nat :=
  if decide (Exists (fun t => (cutoff < t)%Q) times) then length times else 0%nat.

(** A run of requests through the middleware, each with what it reads
    from its environment and its handler: the final map and the records
    each request logged. *)
Fixpoint serve (requests : list (Env * Request * (Request -> result Response)))
    (d : gmap string (list Q)) : gmap string (list Q) * list (list log_call) :=
  match requests with
  | [] => (d, [])
  | (env, request, call_next) :: requests' =>
      let '(d1, logs, _) := dispatch env request call_next d in
      let '(d2, rest) := serve requests' d1 in
      (d2, logs :: rest)
  end.

(** A request is rejected, for a source, when its handler answers 401 or
    403 and its source address is that source; it is let through when the
    handler answers with any other status. *)
Definition rejected (ip : string)
    (r : Env * Request * (Request -> result Response)) : Prop :=
  let '(env, request, call_next) := r in
  source_address request = ip ∧
  ∃ response,
    call_next (set_request_id request (uuid4 env)) = Return response ∧
    in_401_403 (status_code response) = true.

Definition let_through
    (r : Env * Request * (Request -> result Response)) : Prop :=
  let '(env, request, call_next) := r in
  ∃ response,
    call_next (set_request_id request (uuid4 env)) = Return response ∧
    in_401_403 (status_code response) = false.

End Middleware.


(** ** app/logging_config.py *)
Module Logging.
Import Middleware.

Definition levelname_str (lv : level) : string :=
  match lv with
  | INFO => "INFO"
  | WARNING => "WARNING"
  | ERROR => "ERROR"
  | CRITICAL => "CRITICAL"
  end.

(** The extra fields [JSONFormatter.format] looks for, in its order. *)
Definition FIELDS : list string :=
  ["request_id"; "method"; "path"; "status_code"; "client_ip"; "user_agent";
   "response_time_ms"; "api_key_id"; "error"; "event_type"].

(** [log_entry[key] = v] on a dict kept as its items in insertion order. *)
Fixpoint dict_set (entry : list (string * value)) (key : string) (v : value)
  : list (string * value) :=
  match entry with
  | [] => [(key, v)]
  | kv :: entry' =>
      if String.eqb (fst kv) key then (key, v) :: entry'
      else kv :: dict_set entry' key v
  end.

(** The dict [format] builds: the four fixed entries, then each of
    [FIELDS] that the record carries ([getattr(record, field, None)] is
    the extra of that name). *)
Definition log_entry (timestamp logger : string) (record : log_call)
  : list (string * value) :=
  fold_left
    (fun entry field =>
       match extra record !! field with
       | Some v => dict_set entry field v
       | None => entry
       end)
    FIELDS
    [("timestamp", VStr timestamp);
     ("level", VStr (levelname_str (levelname record)));
     ("logger", VStr logger);
     ("message", VStr (message record))].

(** [JSONFormatter.format]: [json.dumps] of that dict; [timestamp] is
    [datetime.now(timezone.utc).isoformat()] and [logger] the record's
    logger name. *)
Definition format (json_dumps : list (string * value) -> string)
    (timestamp logger : string) (record : log_call) : string :=
  json_dumps (log_entry timestamp logger record).

End Logging.

(** ** app/schemas.py *)
Module Schemas.

(** The text of a joke, a [str], as its code points. *)
Definition text := list N.

(** The characters [str.strip] removes: those for which [str.isspace]
    holds. *)
Definition isspace (c : N) : bool :=
  ((9 <=? c) && (c <=? 13) || (28 <=? c) && (c <=? 32)
   || (c =? 133) || (c =? 160) || (c =? 5760)
   || (8192 <=? c) && (c <=? 8202)
   || (c =? 8232) || (c =? 8233) || (c =? 8239) || (c =? 8287)
   || (c =? 12288))%N.

Fixpoint lstrip (v : text) : text :=
  match v with
  | c :: v' => if isspace c then lstrip v' else v
  | [] => []
  end.

Definition strip (v : text) : text := reverse (lstrip (reverse (lstrip v))).

(** An ASCII text, for examples. *)
Definition of_ascii (s : string) : text := N_of_ascii <$> list_ascii_of_string s.

(** The outcome of validating a field: the value, or the type of the
    validation error. *)
Inductive validated (A : Type) :=
| Valid (a : A)
| Invalid (error_type : string).
Arguments Valid {A} a.
Arguments Invalid {A} error_type.

(** [JokeCreate.sanitize_text]; the [ValueError] becomes a [value_error]. *)
Definition sanitize_text (v : text) : validated text :=
  let v := strip v in
  match v with
  | [] => Invalid "value_error"
  | _ => Valid v
  end.

(** Validation of [JokeCreate.text]: the length constraints of the field
    on the value as sent, then the validator. *)
Definition validate_joke_text (v : text) : validated text :=
  if (length v <? 10)%nat then Invalid "string_too_short"
  else if (500 <? length v)%nat then Invalid "string_too_long"
  else sanitize_text v.

Record JokeListResponse (J : Type) := {
  jokes : list J;
  total : Z;
  page : Z;
  per_page : Z
}.
Arguments jokes {J} _.
Arguments total {J} _.
Arguments page {J} _.
Arguments per_page {J} _.

Record APIKeyResponse := {
  response_name : string;
  api_key : string;
  response_message : string
}.

End Schemas.

(** ** app/main.py *)
Module Main.
Import Auth Middleware Schemas.

Definition HTTP_404_NOT_FOUND : Z := 404.
Definition HTTP_409_CONFLICT : Z := 409.

(** A row of the [jokes] table (app/models.py): [id] is the primary key
    and [text] is declared unique. *)
Record Joke := {
  joke_id : Z;
  joke_text : text;
  joke_created_at : Z
}.

#[global] Instance Joke_eq_dec : EqDecision Joke.
Proof. solve_decision. Defined.

(** A row for examples. *)
Definition joke_row (i : Z) (s : string) : Joke :=
  {| joke_id := i; joke_text := of_ascii s; joke_created_at := 0 |}.

(** What an endpoint does: the tables after it, the records it logs, and
    its result. *)
Record effect (T A : Type) := {
  table : T;
  logged : list log_call;
  outcome : A
}.
Arguments table {T A} _.
Arguments logged {T A} _.
Arguments outcome {T A} _.

(** The integers a database driver binds as query parameters: 64 bits,
    signed.  Beyond them the driver raises before any row is looked at
    (SQLite: [OverflowError]); the functions below model the queries on
    parameters inside this range only. *)
Definition int64 (n : Z) : Prop := (- 2 ^ 63 ≤ n < 2 ^ 63)%Z.

(** [get_joke_by_id], for an id that is an [int64]:
    [db.query(Joke).filter(Joke.id == joke_id).first()] *)
Definition get_joke_by_id (joke_id' : Z) (db : list Joke) : result Joke :=
  match head (filter (fun j => joke_id j = joke_id') db) with
  | None =>
      Raise (HTTPException HTTP_404_NOT_FOUND
               ("Joke with id " +:+ pretty joke_id' +:+ " not found."))
  | Some joke => Return joke
  end.

(** [order_by(Joke.id)] *)
Definition id_le (a b : Joke) : Prop := (joke_id a ≤ joke_id b)%Z.

#[global] Instance id_le_dec : RelDecision id_le.
Proof. intros a b. unfold id_le. apply _. Defined.

#[global] Instance id_le_total : Total id_le.
Proof. intros a b. unfold id_le. lia. Qed.

#[global] Instance id_le_trans : Transitive id_le.
Proof. intros a b c. unfold id_le. lia. Qed.

Definition order_by_id (db : list Joke) : list Joke := merge_sort id_le db.

(** [list_jokes]; [page >= 1] and [1 <= per_page <= 100] are checked
    before the function is called, and the offset [(page - 1) * per_page]
    is bound as a query parameter, so it is an [int64]. *)
Definition list_jokes (page per_page : Z) (db : list Joke)
  : JokeListResponse Joke :=
  let total := Z.of_nat (length db) in
  let jokes :=
    take (Z.to_nat per_page)
         (drop (Z.to_nat ((page - 1) * per_page)) (order_by_id db)) in
  {| jokes := jokes; total := total; page := page; per_page := per_page |}.

Section Endpoints.

Variable sha256_hexdigest : string -> string.

(** [create_joke], with its dependency [verify_api_key]: [text] is the
    validated text, [new_id] the key the database gives the new row and
    [now] its creation time.  The commit fails with [IntegrityError]
    when the text is already in the table. *)
Definition create_joke (api_key : option string) (text' : text)
    (new_id now : Z) (keys : list APIKey) (db : list Joke)
  : effect (list Joke) (result Joke) :=
  match verify_api_key sha256_hexdigest api_key keys with
  | Raise e => {| table := db; logged := []; outcome := Raise e |}
  | Return _key =>
      let db_joke :=
        {| joke_id := new_id; joke_text := text'; joke_created_at := now |} in
      if decide (text' ∈ joke_text <$> db) then
        {| table := db; logged := [];
           outcome := Raise (HTTPException HTTP_409_CONFLICT
                               "This joke already exists.") |}
      else
        {| table := db ++ [db_joke];
           logged :=
             [{| levelname := INFO; message := "New joke created";
                 extra := <["api_key_id" := VInt (id _key)]>
                          (<["joke_id" := VInt (joke_id db_joke)]>
                          (<["event_type" := VStr "joke_created"]> ∅)) |}];
           outcome := Return db_joke |}
  end.

(** [generate_api_key]; [token] is [secrets.token_urlsafe(32)]. *)
Definition generate_api_key (token : string) : string := "cnj_" +:+ token.

(** How [create_api_key] ends: with its response, with the exception of
    the admin gate, or with the [IntegrityError] of a commit that breaks
    the unique [key_hash], which the function does not catch. *)
Inductive minted :=
| Minted (response : APIKeyResponse)
| Refused (e : exn)
| IntegrityError.

(** [create_api_key], with its dependency [verify_admin_secret]. *)
Definition create_api_key (ADMIN_SECRET : string) (api_key : option string)
    (payload_name token : string) (new_id now : Z) (keys : list APIKey)
  : effect (list APIKey) minted :=
  match verify_admin_secret ADMIN_SECRET api_key with
  | Raise e => {| table := keys; logged := []; outcome := Refused e |}
  | Return _admin =>
      let raw_key := generate_api_key token in
      let db_key :=
        {| id := new_id; key_hash := hash_api_key sha256_hexdigest raw_key;
           name := payload_name; is_active := true; created_at := now |} in
      if decide (key_hash db_key ∈ key_hash <$> keys) then
        {| table := keys; logged := []; outcome := IntegrityError |}
      else
        {| table := keys ++ [db_key];
           logged :=
             [{| levelname := INFO; message := "New API key created";
                 extra := <["key_id" := VInt (id db_key)]>
                          (<["key_name" := VStr payload_name]>
                          (<["event_type" := VStr "api_key_created"]> ∅)) |}];
           outcome :=
             Minted {| response_name := payload_name; api_key := raw_key;
                       response_message :=
                         "Store this key securely — it will not be shown again." |} |}
  end.

End Endpoints.

End Main.

(** * Properties *)

(** ** The credential checks *)
Module AuthProps.
Import Auth.

Section Authenticator.

Variable sha256_hexdigest : string -> string.

Abbreviation verify := (verify_api_key sha256_hexdigest).
Abbreviation hash := (hash_api_key sha256_hexdigest).

Lemma query_first_None db h :
  (∀ c, c ∈ db → key_hash c = h → is_active c = false) →
  query_first db h = None.
Proof.
  intros Hall. unfold query_first.
  destruct (filter _ db) as [|c l] eqn:E; [done|].
  assert (Hc : c ∈ filter (fun k => key_hash k = h ∧ is_active k = true) db)
    by (rewrite E; left).
  apply list_elem_of_filter in Hc as [[Hh Ha] Hin].
  rewrite (Hall c Hin Hh) in Ha. discriminate.
Qed.

Lemma query_first_Some db h c :
  unique_key_hash db → c ∈ db → key_hash c = h → is_active c = true →
  query_first db h = Some c.
Proof.
  unfold unique_key_hash, query_first.
  induction db as [|r db IH]; intros Hnd Hin Hh Ha.
  - inversion Hin.
  - rewrite fmap_cons in Hnd. apply NoDup_cons in Hnd as [Hr Hnd].
    apply elem_of_cons in Hin as [->|Hin].
    + rewrite filter_cons_True by done. reflexivity.
    + rewrite filter_cons_False.
      * by apply IH.
      * intros [Hrh _]. apply Hr.
        rewrite Hrh, <- Hh. apply list_elem_of_fmap. by exists c.
Qed.

Lemma verify_present key db :
  key ≠ "" →
  verify (Some key) db =
    match query_first db (hash key) with
    | None => Raise (HTTPException 403 "Invalid or deactivated API key.")
    | Some db_key => Return db_key
    end.
Proof. destruct key; [done|reflexivity]. Qed.

(** C4.  [verify_api_key] answers 401 "missing" to an absent or empty
    secret.  For a secret that is presented, it answers the same 403
    "invalid" both when no stored credential has the secret's fingerprint
    and when the credential that has it is inactive, and it returns the
    credential when the credential that has the fingerprint is active. *)
Theorem verify_api_key_outcomes (db : list APIKey) :
  unique_key_hash db →
  let missing :=
    Raise (HTTPException 401 "Missing API key. Provide X-API-Key header.") in
  let invalid :=
    Raise (HTTPException 403 "Invalid or deactivated API key.") in
  verify None db = missing ∧
  verify (Some "") db = missing ∧
  ∀ secret, secret ≠ "" →
    ((∀ c, c ∈ db → key_hash c ≠ hash secret) →
       verify (Some secret) db = invalid) ∧
    (∀ c, c ∈ db → key_hash c = hash secret → is_active c = false →
       verify (Some secret) db = invalid) ∧
    (∀ c, c ∈ db → key_hash c = hash secret → is_active c = true →
       verify (Some secret) db = Return c).
Proof.
  intros Huniq missing invalid.
  split; [reflexivity|]. split; [reflexivity|].
  intros secret Hne. rewrite (verify_present _ _ Hne).
  split; [|split].
  - intros Hnone. rewrite query_first_None; [done|].
    intros c Hin Hh. by destruct (Hnone c Hin).
  - intros c Hin Hh Ha. rewrite query_first_None; [done|].
    intros c' Hin' Hh'.
    assert (c' = c) as ->; [|done].
    clear Ha. unfold unique_key_hash in Huniq.
    apply list_elem_of_lookup in Hin as [i Hi], Hin' as [j Hj].
    assert (i = j) as ->; [|congruence].
    eapply NoDup_lookup; [exact Huniq| |].
    + rewrite list_lookup_fmap, Hi. reflexivity.
    + rewrite list_lookup_fmap, Hj. simpl. congruence.
  - intros c Hin Hh Ha. by rewrite (query_first_Some db _ c).
Qed.

End Authenticator.

(** The theorem at a table of one active and one revoked key, with the
    identity standing for the digest. *)
Lemma verify_api_key_outcomes_witness :
  let digest := fun s : string => s in
  let db := [key_row 1 "cnj_live" true; key_row 2 "cnj_old" false] in
  verify_api_key digest None db
    = Raise (HTTPException 401 "Missing API key. Provide X-API-Key header.") ∧
  verify_api_key digest (Some "cnj_nope") db
    = Raise (HTTPException 403 "Invalid or deactivated API key.") ∧
  verify_api_key digest (Some "cnj_old") db
    = Raise (HTTPException 403 "Invalid or deactivated API key.") ∧
  verify_api_key digest (Some "cnj_live") db = Return (key_row 1 "cnj_live" true).
Proof.
  intros digest db.
  assert (Hu : unique_key_hash db).
  { unfold unique_key_hash, db. simpl.
    apply NoDup_cons. split; [|apply NoDup_singleton].
    intros Hx. apply list_elem_of_singleton in Hx. discriminate Hx. }
  assert (Hlive : key_row 1 "cnj_live" true ∈ db) by (unfold db; left).
  assert (Hold : key_row 2 "cnj_old" false ∈ db) by (unfold db; right; left).
  pose proof (verify_api_key_outcomes digest db Hu) as (H1 & _ & H).
  split; [exact H1|].
  split.
  - apply (H "cnj_nope"); [discriminate|].
    intros c Hc E. unfold db in Hc.
    apply elem_of_cons in Hc as [->|Hc]; [discriminate E|].
    apply list_elem_of_singleton in Hc as ->. discriminate E.
  - split.
    + apply (proj1 (proj2 (H "cnj_old" ltac:(discriminate))) _ Hold);
        reflexivity.
    + apply (proj2 (proj2 (H "cnj_live" ltac:(discriminate))) _ Hlive);
        reflexivity.
Defined.

(** *** The admin gate *)

Lemma verify_admin_configured secret key :
  secret ≠ "" → key ≠ "" →
  verify_admin_secret secret (Some key) =
    match compare_digest key secret with
    | Raise e => Raise e
    | Return false => invalid_admin
    | Return true => Return key
    end.
Proof. destruct secret; [done|]. destruct key; [done|reflexivity]. Qed.

Lemma compare_digest_ascii a b :
  isascii a = true → isascii b = true →
  compare_digest a b = Return (String.eqb a b).
Proof. intros Ha Hb. unfold compare_digest. by rewrite Ha, Hb. Qed.

Lemma compare_digest_true a b :
  compare_digest a b = Return true → a = b ∧ isascii b = true.
Proof.
  unfold compare_digest.
  destruct (isascii a) eqn:Ea, (isascii b) eqn:Eb; try discriminate.
  simpl. intros [= E]. by apply String.eqb_eq in E.
Qed.

(** C5, as the code has it.  With the admin secret unset or empty every
    call fails with 503, whatever is presented, the empty string included.
    With a secret configured: an absent and an empty presented value fail
    with 401 "missing"; a presented non-empty value that differs from the
    secret fails with 403 "invalid" (both values ASCII, the comparison
    being exact and case-sensitive); and the call succeeds only when the
    presented value is the secret, and always then for an ASCII secret. *)
Theorem verify_admin_secret_outcomes (secret : string) :
  (secret = "" → ∀ presented, verify_admin_secret secret presented = not_configured) ∧
  (secret ≠ "" →
     verify_admin_secret secret None = missing_admin ∧
     verify_admin_secret secret (Some "") = missing_admin ∧
     (∀ key, key ≠ "" → key ≠ secret → isascii key = true → isascii secret = true →
        verify_admin_secret secret (Some key) = invalid_admin) ∧
     (∀ presented v, verify_admin_secret secret presented = Return v →
        presented = Some secret ∧ v = secret) ∧
     (isascii secret = true →
        verify_admin_secret secret (Some secret) = Return secret)).
Proof.
  split.
  - intros -> presented. reflexivity.
  - intros Hs.
    assert (Hret : ∀ presented v,
               verify_admin_secret secret presented = Return v →
               presented = Some secret ∧ v = secret).
    { intros [key|] v H; [|by destruct secret].
      destruct (decide (key = "")) as [->|Hk]; [by destruct secret|].
      rewrite verify_admin_configured in H by done.
      destruct (compare_digest key secret) as [[]|] eqn:E; try discriminate.
      apply compare_digest_true in E as [-> _]. by injection H as <-. }
    split; [by destruct secret|]. split; [by destruct secret|].
    split; [|split; [exact Hret|]].
    + intros key Hk Hne Ha Hb.
      rewrite verify_admin_configured, compare_digest_ascii by done.
      apply String.eqb_neq in Hne. by rewrite Hne.
    + intros Ha. rewrite verify_admin_configured, compare_digest_ascii by done.
      by rewrite String.eqb_refl.
Qed.

Lemma verify_admin_secret_outcomes_witness :
  verify_admin_secret "" (Some "") = not_configured ∧
  verify_admin_secret "X" None = missing_admin ∧
  verify_admin_secret "X" (Some "x") = invalid_admin ∧
  verify_admin_secret "X" (Some "X") = Return "X".
Proof.
  split.
  - apply (proj1 (verify_admin_secret_outcomes "")). reflexivity.
  - destruct (proj2 (verify_admin_secret_outcomes "X") ltac:(discriminate))
      as (Hnone & _ & Hbad & _ & Hok).
    split; [exact Hnone|]. split.
    + apply Hbad; [discriminate|discriminate|reflexivity|reflexivity].
    + apply Hok. reflexivity.
Defined.

(** C5 as it is worded fails: with the secret ["X"] configured, the
    presented value [""] differs from the secret, yet the answer is 401
    "missing", not 403 "invalid". *)
Lemma empty_mismatch_is_not_invalid :
  Some "" ≠ Some "X" ∧
  verify_admin_secret "X" (Some "") = missing_admin ∧
  verify_admin_secret "X" (Some "") ≠ invalid_admin.
Proof. repeat split; discriminate. Qed.

(** C10.  With a secret configured, a presented empty string fails with
    401 "missing", not 403 "invalid", exactly as an absent value does and
    without any comparison with the secret. *)
Theorem verify_admin_secret_empty (secret : string) :
  secret ≠ "" →
  verify_admin_secret secret (Some "") = missing_admin ∧
  verify_admin_secret secret (Some "") ≠ invalid_admin ∧
  verify_admin_secret secret (Some "") = verify_admin_secret secret None.
Proof. destruct secret; [done|]. repeat split. discriminate. Qed.

Lemma verify_admin_secret_empty_witness :
  verify_admin_secret "test-admin-secret" (Some "") = missing_admin ∧
  verify_admin_secret "test-admin-secret" (Some "") ≠ invalid_admin ∧
  verify_admin_secret "test-admin-secret" (Some "")
    = verify_admin_secret "test-admin-secret" None.
Proof. apply (verify_admin_secret_empty "test-admin-secret"). discriminate. Defined.

(** X24.  The comparison of the admin gate rejects text that is not
    ASCII: with a secret configured, a non-empty presented value with a
    character outside ASCII ends in the [TypeError] of [compare_digest],
    not in an HTTP error, and so does every non-empty presented value when
    the secret itself is not ASCII. *)
Theorem verify_admin_secret_non_ascii (secret key : string) :
  secret ≠ "" → key ≠ "" →
  isascii key = false ∨ isascii secret = false →
  verify_admin_secret secret (Some key)
  = Raise (TypeError "comparing strings with non-ASCII characters is not supported").
Proof.
  intros Hs Hk Hna. rewrite verify_admin_configured by done.
  unfold compare_digest.
  destruct Hna as [-> | ->]; [done|]. by rewrite andb_false_r.
Qed.

Lemma verify_admin_secret_non_ascii_witness :
  verify_admin_secret "test-admin-secret" (Some (String (ascii_of_N 233) "t"))
  = Raise (TypeError "comparing strings with non-ASCII characters is not supported").
Proof.
  apply verify_admin_secret_non_ascii; [discriminate|discriminate|].
  left. reflexivity.
Defined.

End AuthProps.

(** ** The failure tracker *)
Module TrackerProps.
Import Middleware.

Implicit Types (d : gmap string (list Q)) (l times : list Q) (now t : Q).

#[local] Arguments _track_auth_failure : simpl never.

Lemma getitem_insert d k l : getitem (<[k:=l]> d) k = l.
Proof. unfold getitem. by rewrite lookup_insert_eq. Qed.

Lemma getitem_insert_ne d k k' l : k ≠ k' → getitem (<[k:=l]> d) k' = getitem d k'.
Proof. intros. unfold getitem. by rewrite lookup_insert_ne. Qed.

(** The map after a call: the client's sequence pruned, then [now] added. *)
Lemma track_map now ip d :
  fst (_track_auth_failure now ip d) = <[ip := pruned now (getitem d ip) ++ [now]]> d.
Proof.
  unfold _track_auth_failure. cbn [fst].
  rewrite getitem_insert, insert_insert_eq. reflexivity.
Qed.

Lemma track_getitem now ip d :
  getitem (fst (_track_auth_failure now ip d)) ip = pruned now (getitem d ip) ++ [now].
Proof. by rewrite track_map, getitem_insert. Qed.

(** What a call logs depends on the two counts alone. *)
Lemma track_logs now ip d :
  let n := S (length (pruned now (getitem d ip))) in
  let total := total_failures (cutoff_at now) (fst (_track_auth_failure now ip d)) in
  snd (_track_auth_failure now ip d) =
    (if decide (AUTH_FAILURE_THRESHOLD_IP ≤ n)%nat
     then [brute_force_record ip n] else []) ++
    (if decide (AUTH_FAILURE_THRESHOLD_GLOBAL ≤ total)%nat
     then [spray_record total] else []).
Proof.
  intros n total. subst n total. rewrite track_map.
  unfold _track_auth_failure. cbn [snd].
  rewrite !getitem_insert, insert_insert_eq.
  fold (cutoff_at now). fold (pruned now (getitem d ip)).
  rewrite length_app. cbn [length]. rewrite Nat.add_1_r. reflexivity.
Qed.

Lemma is_brute_force_bf ip n : is_brute_force (brute_force_record ip n) = true.
Proof. reflexivity. Qed.

Lemma is_brute_force_spray n : is_brute_force (spray_record n) = false.
Proof. reflexivity. Qed.

Lemma is_spray_spray n : is_spray (spray_record n) = true.
Proof. reflexivity. Qed.

Lemma is_spray_bf ip n : is_spray (brute_force_record ip n) = false.
Proof. reflexivity. Qed.

(** The brute-force records of a call. *)
Lemma track_brute_force now ip d :
  let n := S (length (pruned now (getitem d ip))) in
  List.filter is_brute_force (snd (_track_auth_failure now ip d)) =
    if decide (AUTH_FAILURE_THRESHOLD_IP ≤ n)%nat
    then [brute_force_record ip n] else [].
Proof.
  intros n. rewrite track_logs. fold n.
  rewrite List.filter_app.
  destruct (decide (AUTH_FAILURE_THRESHOLD_IP ≤ n)%nat);
    destruct (decide (AUTH_FAILURE_THRESHOLD_GLOBAL ≤ _)%nat); reflexivity.
Qed.

Lemma pruned_all now l :
  (∀ t, t ∈ l → (now - inject_Z AUTH_FAILURE_WINDOW < t)%Q) → pruned now l = l.
Proof.
  intros H. unfold pruned. induction l as [|a l IH]; [done|].
  rewrite filter_cons_True by (apply H; left).
  f_equal. apply IH. intros t Ht. apply H. by right.
Qed.

Lemma pruned_none now l :
  (∀ t, t ∈ l → (t <= now - inject_Z AUTH_FAILURE_WINDOW)%Q) → pruned now l = [].
Proof.
  intros H. unfold pruned. induction l as [|a l IH]; [done|].
  rewrite filter_cons_False.
  - apply IH. intros t Ht. apply H. by right.
  - apply Qle_not_lt. apply H. left.
Qed.

Lemma pruned_fresh now l t : t ∈ pruned now l → (cutoff_at now < t)%Q.
Proof. unfold pruned. intros H. by apply list_elem_of_filter in H as [? _]. Qed.

Lemma now_fresh now : (cutoff_at now < now)%Q.
Proof. unfold cutoff_at, AUTH_FAILURE_WINDOW, inject_Z. lra. Qed.

(** *** Other clients are left alone *)

(** C9.  A call changes the sequence of the given client only: every
    other client keeps the sequence it had, out-of-window timestamps
    included, and every key of the map is still a key afterwards. *)
Theorem track_frame now ip d :
  (∀ ip', ip' ≠ ip → fst (_track_auth_failure now ip d) !! ip' = d !! ip') ∧
  dom d ⊆ dom (fst (_track_auth_failure now ip d)).
Proof.
  rewrite track_map. split.
  - intros ip' Hne. by rewrite lookup_insert_ne.
  - rewrite dom_insert_L. set_solver.
Qed.

Lemma track_frame_witness :
  let d : gmap string (list Q) := {[ "10.0.0.2" := [0%Q; 5%Q] ]} in
  fst (_track_auth_failure 1000 "10.0.0.1" d) !! "10.0.0.2" = Some [0%Q; 5%Q] ∧
  "10.0.0.2" ∈ dom (fst (_track_auth_failure 1000 "10.0.0.1" d)).
Proof.
  intros d.
  destruct (track_frame 1000 "10.0.0.1" d) as [Hother Hdom]. split.
  - rewrite (Hother "10.0.0.2") by discriminate. reflexivity.
  - apply Hdom. unfold d. rewrite dom_singleton_L. by apply elem_of_singleton.
Defined.

(** *** The per-client threshold *)

Lemma record_all_cons ip t ts d :
  record_all ip (t :: ts) d =
    (fst (record_all ip ts (fst (_track_auth_failure t ip d))),
     snd (_track_auth_failure t ip d)
       :: snd (record_all ip ts (fst (_track_auth_failure t ip d)))).
Proof.
  cbn [record_all].
  destruct (_track_auth_failure t ip d) as [d1 out]. cbn [fst snd].
  by destruct (record_all ip ts d1).
Qed.

Lemma record_all_length ip ts : ∀ d, length (snd (record_all ip ts d)) = length ts.
Proof.
  induction ts as [|t ts IH]; intros d; [done|].
  rewrite record_all_cons. cbn [snd length]. by rewrite IH.
Qed.

(** While every timestamp stays in the window nothing is pruned: the
    sequence grows by the times of the calls, and no call below the
    threshold logs a brute-force record. *)
Lemma record_all_fresh ip ts : ∀ d,
  (∀ a b, a ∈ getitem d ip ++ ts → b ∈ ts → (cutoff_at b < a)%Q) →
  getitem (fst (record_all ip ts d)) ip = getitem d ip ++ ts ∧
  ((length (getitem d ip) + length ts < AUTH_FAILURE_THRESHOLD_IP)%nat →
   Forall (fun out => List.filter is_brute_force out = [])
          (snd (record_all ip ts d))).
Proof.
  induction ts as [|t ts IH]; intros d Hwin.
  - cbn [record_all fst snd]. rewrite app_nil_r. split; [done|]. intros _. constructor.
  - assert (Hkeep : pruned t (getitem d ip) = getitem d ip).
    { apply pruned_all. intros a Ha. apply Hwin; [|left].
      apply elem_of_app. by left. }
    pose proof (track_getitem t ip d) as Hseq.
    pose proof (track_brute_force t ip d) as Hbf.
    rewrite Hkeep in Hseq, Hbf. cbv zeta in Hbf.
    rewrite record_all_cons. cbn [fst snd].
    destruct (IH (fst (_track_auth_failure t ip d))) as [IH1 IH2].
    { rewrite Hseq, <- app_assoc. intros a b Ha Hb.
      apply Hwin; [done|by right]. }
    rewrite Hseq, <- app_assoc in IH1. rewrite Hseq in IH2.
    split; [done|]. intros Hlt. cbn [length] in Hlt. constructor.
    + rewrite Hbf. destruct (decide _) as [Hge|]; [|done].
      unfold AUTH_FAILURE_THRESHOLD_IP in *. lia.
    + apply IH2. rewrite length_app. cbn [length]. lia.
Qed.

(** The sequence of a client after a call holds in-window timestamps only,
    and the call logs a brute-force record exactly when their number, the
    new one included, reaches the threshold. *)
Lemma track_counts_window_only now ip d :
  (∀ t, t ∈ getitem (fst (_track_auth_failure now ip d)) ip →
        (now - inject_Z AUTH_FAILURE_WINDOW < t)%Q) ∧
  List.filter is_brute_force (snd (_track_auth_failure now ip d)) =
    let n := S (length (filter (fun t => (now - inject_Z AUTH_FAILURE_WINDOW < t)%Q)
                               (getitem d ip))) in
    if decide (AUTH_FAILURE_THRESHOLD_IP ≤ n)%nat
    then [brute_force_record ip n] else [].
Proof.
  split.
  - intros t. rewrite track_getitem. intros Ht.
    apply elem_of_app in Ht as [Ht|Ht].
    + by apply pruned_fresh in Ht.
    + apply list_elem_of_singleton in Ht as ->. apply now_fresh.
  - apply track_brute_force.
Qed.

(** C2.  Take a client whose earlier failures, if any, are all at least a
    window old, and [T_ip - 1] calls for it followed by one more, the
    times of all of them within one window of each other.  None of the
    first [T_ip - 1] calls logs a brute-force record; the next one logs
    exactly one, for this client, with count [T_ip].  And in any call the
    timestamps not newer than [now - W] are dropped before the comparison:
    the record is logged exactly when the in-window count reaches [T_ip]. *)
Theorem brute_force_threshold ip d ts t_last :
  length ts = (AUTH_FAILURE_THRESHOLD_IP - 1)%nat →
  (∀ a b, a ∈ ts ++ [t_last] → b ∈ ts ++ [t_last] →
     (b - inject_Z AUTH_FAILURE_WINDOW < a)%Q) →
  (∀ t0 c, t0 ∈ getitem d ip → c ∈ ts ++ [t_last] →
     (t0 <= c - inject_Z AUTH_FAILURE_WINDOW)%Q) →
  length (snd (record_all ip ts d)) = (AUTH_FAILURE_THRESHOLD_IP - 1)%nat ∧
  Forall (fun out => List.filter is_brute_force out = [])
         (snd (record_all ip ts d)) ∧
  List.filter is_brute_force
    (snd (_track_auth_failure t_last ip (fst (record_all ip ts d))))
    = [brute_force_record ip AUTH_FAILURE_THRESHOLD_IP] ∧
  ∀ d0 now,
    (∀ t, t ∈ getitem (fst (_track_auth_failure now ip d0)) ip →
          (now - inject_Z AUTH_FAILURE_WINDOW < t)%Q) ∧
    List.filter is_brute_force (snd (_track_auth_failure now ip d0)) =
      let n := S (length (filter (fun t => (now - inject_Z AUTH_FAILURE_WINDOW < t)%Q)
                                 (getitem d0 ip))) in
      if decide (AUTH_FAILURE_THRESHOLD_IP ≤ n)%nat
      then [brute_force_record ip n] else [].
Proof.
  intros Hlen Hwin Hstale.
  split; [by rewrite record_all_length|].
  cut (Forall (fun out => List.filter is_brute_force out = [])
              (snd (record_all ip ts d)) ∧
       List.filter is_brute_force
         (snd (_track_auth_failure t_last ip (fst (record_all ip ts d))))
         = [brute_force_record ip AUTH_FAILURE_THRESHOLD_IP]).
  { intros [H9 H10]. split; [exact H9|]. split; [exact H10|].
    intros d0 now. apply track_counts_window_only. }
  destruct ts as [|t1 ts]; [discriminate Hlen|].
  assert (Hdrop : pruned t1 (getitem d ip) = []).
  { apply pruned_none. intros t0 Ht0. apply Hstale; [done|left]. }
  pose proof (track_getitem t1 ip d) as Hseq.
  pose proof (track_brute_force t1 ip d) as Hbf.
  rewrite Hdrop in Hseq, Hbf. cbn in Hseq, Hbf.
  destruct (record_all_fresh ip ts (fst (_track_auth_failure t1 ip d)))
    as [Hfin Hnone].
  { rewrite Hseq. intros a b Ha Hb. apply Hwin.
    - cbn in Ha. cbn. apply elem_of_cons in Ha as [->|Ha]; [left|right].
      apply elem_of_app. by left.
    - right. apply elem_of_app. by left. }
  rewrite Hseq in Hfin, Hnone. cbn [length] in Hlen.
  rewrite record_all_cons. cbn [fst snd].
  split.
  - constructor; [done|]. apply Hnone. cbn [length].
    unfold AUTH_FAILURE_THRESHOLD_IP in *. lia.
  - rewrite track_brute_force, Hfin. cbv zeta.
    rewrite pruned_all.
    + cbn [app length]. rewrite Hlen. reflexivity.
    + intros t Ht. apply Hwin; [|apply elem_of_app; right; left].
      cbn in Ht. cbn. apply elem_of_cons in Ht as [->|Ht]; [left|right].
      apply elem_of_app. by left.
Qed.

(** The theorem for a client that failed long ago and then fails ten times,
    ten seconds apart. *)
Lemma brute_force_threshold_witness :
  let d : gmap string (list Q) := {[ "10.0.0.1" := [0%Q] ]} in
  let ts := [1000; 1010; 1020; 1030; 1040; 1050; 1060; 1070; 1080]%Q in
  Forall (fun out => List.filter is_brute_force out = [])
         (snd (record_all "10.0.0.1" ts d)) ∧
  List.filter is_brute_force
    (snd (_track_auth_failure 1090 "10.0.0.1" (fst (record_all "10.0.0.1" ts d))))
    = [brute_force_record "10.0.0.1" 10].
Proof.
  intros d ts.
  assert (Hin : ∀ a, a ∈ ts ++ [1090%Q] → (1000 <= a)%Q ∧ (a <= 1090)%Q).
  { apply Forall_forall. unfold ts. simpl. repeat constructor; discriminate. }
  destruct (brute_force_threshold "10.0.0.1" d ts 1090) as (_ & Hnone & Hlast & _).
  - reflexivity.
  - intros a b Ha Hb. apply Hin in Ha, Hb.
    unfold AUTH_FAILURE_WINDOW, inject_Z. lra.
  - intros t0 c Ht0 Hc. apply Hin in Hc.
    unfold d, getitem in Ht0. rewrite lookup_singleton_eq in Ht0. simpl in Ht0.
    apply list_elem_of_singleton in Ht0 as ->.
    unfold AUTH_FAILURE_WINDOW, inject_Z. lra.
  - split; [exact Hnone|exact Hlast].
Defined.

(** *** Alerts are signals *)

(** A call always changes the map: it adds [now] to the client's sequence. *)
Lemma track_changes now ip d : fst (_track_auth_failure now ip d) ≠ d.
Proof.
  intros E. apply (f_equal (fun m => getitem m ip)) in E.
  rewrite track_getitem in E.
  assert (Hall : pruned now (getitem d ip) = getitem d ip).
  { apply pruned_all. intros t Ht. rewrite <- E in Ht.
    apply elem_of_app in Ht as [Ht|Ht].
    - by apply pruned_fresh in Ht.
    - apply list_elem_of_singleton in Ht as ->. apply now_fresh. }
  rewrite Hall in E. apply (f_equal length) in E.
  rewrite length_app in E. simpl in E. lia.
Qed.

(** The records of a call: at most a brute-force record followed by at
    most a spray record, each decided by the count of this call alone. *)
Lemma track_spray now ip d :
  let total := total_failures (cutoff_at now) (fst (_track_auth_failure now ip d)) in
  List.filter is_spray (snd (_track_auth_failure now ip d)) =
    if decide (AUTH_FAILURE_THRESHOLD_GLOBAL ≤ total)%nat
    then [spray_record total] else [].
Proof.
  intros total. rewrite track_logs. fold total.
  rewrite List.filter_app.
  destruct (decide (AUTH_FAILURE_THRESHOLD_IP ≤ _)%nat);
    destruct (decide (AUTH_FAILURE_THRESHOLD_GLOBAL ≤ total)%nat); reflexivity.
Qed.

(** A brute-force record is logged again by the next call of the same
    client while its failures are still in the window. *)
Lemma track_brute_force_again now now' ip d n :
  brute_force_record ip n ∈ snd (_track_auth_failure now ip d) →
  (∀ t, t ∈ getitem (fst (_track_auth_failure now ip d)) ip →
        (now' - inject_Z AUTH_FAILURE_WINDOW < t)%Q) →
  brute_force_record ip (S n)
    ∈ snd (_track_auth_failure now' ip (fst (_track_auth_failure now ip d))).
Proof.
  intros Hbf Hwin.
  assert (Hn : n = S (length (pruned now (getitem d ip))) ∧
               (AUTH_FAILURE_THRESHOLD_IP ≤ n)%nat).
  { rewrite track_logs in Hbf. cbv zeta in Hbf.
    apply elem_of_app in Hbf as [Hbf|Hbf].
    - destruct (decide _) as [Hge|]; [|by apply elem_of_nil in Hbf].
      apply list_elem_of_singleton in Hbf.
      apply (f_equal (fun r => extra r !! "failure_count")) in Hbf.
      cbv [brute_force_record extra] in Hbf.
      rewrite !lookup_insert_ne, !lookup_insert_eq in Hbf by discriminate.
      injection Hbf as Hbf. apply Nat2Z.inj in Hbf. by subst n.
    - destruct (decide _); [|by apply elem_of_nil in Hbf].
      apply list_elem_of_singleton in Hbf.
      apply (f_equal message) in Hbf. discriminate Hbf. }
  destruct Hn as [Hn Hge].
  rewrite track_logs. cbv zeta. apply elem_of_app. left.
  rewrite pruned_all by exact Hwin. rewrite track_getitem.
  rewrite length_app. cbn [length]. rewrite Nat.add_1_r, <- Hn.
  destruct (decide _) as [|Hlt]; [left|].
  unfold AUTH_FAILURE_THRESHOLD_IP in *. lia.
Qed.

(** *** The aggregate *)

(** C1 does not hold of the code.  After the calls of [stale_calls], none
    of which logs a spray record, another client fails at time 400, when
    only two failures are inside the window: the call counts the first
    client's whole sequence, finds 20 and logs a spray record. *)
Theorem spray_counts_stale_failures :
  stale_map = {[ "10.0.0.2" := stale_calls ]} ∧
  forallb (fun out => match List.filter is_spray out with
                      | [] => true
                      | _ => false
                      end)
          (snd (record_all "10.0.0.2" stale_calls ∅)) = true ∧
  fst (_track_auth_failure 400 "10.0.0.1" stale_map)
    = <[ "10.0.0.1" := [400%Q] ]> stale_map ∧
  pruned_aggregate (400 - inject_Z AUTH_FAILURE_WINDOW)
                   (fst (_track_auth_failure 400 "10.0.0.1" stale_map)) = 2%nat ∧
  snd (_track_auth_failure 400 "10.0.0.1" stale_map) = [spray_record 20].
Proof.
  split; [vm_compute; reflexivity|].
  split; [vm_compute; reflexivity|].
  split; [vm_compute; reflexivity|].
  split; vm_compute; reflexivity.
Qed.

End TrackerProps.

(** ** The middleware *)
Module DispatchProps.
Import Middleware TrackerProps.

Implicit Types (d : gmap string (list Q)) (env : Env) (request : Request)
  (call_next : Request -> result Response) (response : Response).

#[local] Arguments _track_auth_failure : simpl never.

Lemma headers_get_source request :
  headers_get (headers request) "X-Forwarded-For"
    (match client request with Some (host, _) => host | None => "unknown" end)
  = source_address request.
Proof. reflexivity. Qed.

(** [dispatch] when the handler returns, branch by branch. *)
Lemma dispatch_returned env request call_next d response :
  call_next (set_request_id request (uuid4 env)) = Return response →
  dispatch env request call_next d =
    (let s := status_code response in
     if in_401_403 s then
       (fst (_track_auth_failure (time_now env) (source_address request) d),
        request_record WARNING "Authentication failure" "auth_failure"
                       env request response
          :: snd (_track_auth_failure (time_now env) (source_address request) d))
     else if (500 <=? s)%Z then
       (d, [request_record ERROR "Server error" "server_error" env request response])
     else if (400 <=? s)%Z then
       (d, [request_record WARNING "Client error" "http_request" env request response])
     else
       (d, [request_record INFO "Request completed" "http_request" env request response]),
     Return (set_response_header response "X-Request-ID" (uuid4 env))).
Proof.
  intros Hcall. unfold dispatch. rewrite Hcall. cbv zeta.
  cbn [headers set_request_id client method path]. rewrite headers_get_source.
  unfold request_record, request_fields.
  destruct (in_401_403 (status_code response)).
  - destruct (_track_auth_failure _ _ d) as [d' alerts]. cbn [fst snd].
    rewrite insert_insert_eq. reflexivity.
  - destruct (500 <=? status_code response)%Z.
    + rewrite insert_insert_eq. reflexivity.
    + destruct (400 <=? status_code response)%Z; reflexivity.
Qed.

Lemma dispatch_raised env request call_next d e :
  call_next (set_request_id request (uuid4 env)) = Raise e →
  dispatch env request call_next d = (d, [], Raise e).
Proof. intros Hcall. unfold dispatch. by rewrite Hcall. Qed.

(** *** Headers *)

Lemma headers_set_find (h : Headers) key v :
  List.find (fun kv => String.eqb (fst kv) (lower key)) (headers_set h key v)
  = Some (lower key, v).
Proof.
  unfold headers_set. cbv zeta.
  destruct (existsb _ h) eqn:E.
  - induction h as [|kv h IH]; [discriminate E|].
    cbn [replace_first existsb] in *.
    destruct (String.eqb (fst kv) (lower key)) eqn:Ek.
    + cbn [List.find fst]. by rewrite String.eqb_refl.
    + cbn [List.find]. rewrite Ek. by apply IH.
  - induction h as [|kv h IH].
    + cbn. by rewrite String.eqb_refl.
    + cbn [existsb] in E. apply orb_false_iff in E as [Ek E].
      cbn. rewrite Ek. by apply IH.
Qed.

Lemma headers_get_set (h : Headers) key v default :
  headers_get (headers_set h key v) key default = v.
Proof. unfold headers_get. by rewrite headers_set_find. Qed.

Lemma find_first_header (pre post : Headers) k v :
  (∀ kv, kv ∈ pre → fst kv ≠ k) →
  List.find (fun kv => String.eqb (fst kv) k) (pre ++ (k, v) :: post) = Some (k, v).
Proof.
  intros Hpre. induction pre as [|kv pre IH].
  - cbn. by rewrite String.eqb_refl.
  - cbn. destruct (String.eqb_spec (fst kv) k) as [E|_].
    + destruct (Hpre kv); [left|done].
    + apply IH. intros kv' Hin. apply Hpre. by right.
Qed.

Lemma find_no_header (h : Headers) k :
  (∀ kv, kv ∈ h → fst kv ≠ k) →
  List.find (fun kv => String.eqb (fst kv) k) h = None.
Proof.
  intros Hh. induction h as [|kv h IH]; [done|].
  cbn. destruct (String.eqb_spec (fst kv) k) as [E|_].
  - destruct (Hh kv); [left|done].
  - apply IH. intros kv' Hin. apply Hh. by right.
Qed.

(** *** Classification *)

Lemma in_401_403_spec s : in_401_403 s = true ↔ (s = 401 ∨ s = 403)%Z.
Proof. unfold in_401_403. rewrite orb_true_iff, !Z.eqb_eq. done. Qed.

Lemma dispatch_auth_failure env request call_next d response :
  call_next (set_request_id request (uuid4 env)) = Return response →
  (status_code response = 401 ∨ status_code response = 403)%Z →
  fst (dispatch env request call_next d)
  = (fst (_track_auth_failure (time_now env) (source_address request) d),
     request_record WARNING "Authentication failure" "auth_failure"
                    env request response
       :: snd (_track_auth_failure (time_now env) (source_address request) d)).
Proof.
  intros Hcall Hs. rewrite (dispatch_returned _ _ _ _ _ Hcall). cbv zeta.
  apply in_401_403_spec in Hs. by rewrite Hs.
Qed.

(** Whatever the branch, the first record logged is the request's. *)
Lemma dispatch_first_record env request call_next d response :
  call_next (set_request_id request (uuid4 env)) = Return response →
  ∃ lv msg ev alerts,
    snd (fst (dispatch env request call_next d))
    = request_record lv msg ev env request response :: alerts.
Proof.
  intros Hcall. rewrite (dispatch_returned _ _ _ _ _ Hcall). cbv zeta.
  destruct (in_401_403 (status_code response)); [by eexists _, _, _, _|].
  destruct (500 <=? status_code response)%Z; [by eexists _, _, _, _|].
  destruct (400 <=? status_code response)%Z; by eexists _, _, _, _.
Qed.

(** C7.  When the handler returns a response with status [s], exactly one
    branch is taken: 401 and 403 log a warning "Authentication failure"
    with event type [auth_failure] and run the tracker on the source
    address; any other status of 500 or more logs an error "Server error"
    with event type [server_error]; any other status from 400 to 499 logs
    a warning "Client error"; every remaining status logs "Request
    completed" at level info.  The tracker map changes exactly when the
    status is 401 or 403. *)
Theorem dispatch_classifies env request call_next d response :
  call_next (set_request_id request (uuid4 env)) = Return response →
  let s := status_code response in
  let out := fst (dispatch env request call_next d) in
  let track :=
    _track_auth_failure (time_now env) (source_address request) d in
  ((s = 401 ∨ s = 403)%Z →
     out = (fst track,
            request_record WARNING "Authentication failure" "auth_failure"
                           env request response :: snd track)) ∧
  ((s ≠ 401)%Z → (s ≠ 403)%Z → (500 ≤ s)%Z →
     out = (d, [request_record ERROR "Server error" "server_error"
                               env request response])) ∧
  ((s ≠ 401)%Z → (s ≠ 403)%Z → (400 ≤ s ≤ 499)%Z →
     out = (d, [request_record WARNING "Client error" "http_request"
                               env request response])) ∧
  ((s < 400)%Z →
     out = (d, [request_record INFO "Request completed" "http_request"
                               env request response])) ∧
  (fst out ≠ d ↔ (s = 401 ∨ s = 403)%Z).
Proof.
  intros Hcall s out track. subst out.
  rewrite (dispatch_returned _ _ _ _ _ Hcall). cbv zeta. fold s. cbn [fst].
  destruct (in_401_403 s) eqn:Eauth.
  - apply in_401_403_spec in Eauth.
    split; [done|]. split; [tauto|]. split; [tauto|]. split; [lia|].
    cbn [fst]. split; [done|]. intros _. apply track_changes.
  - assert (Hno : ¬ (s = 401 ∨ s = 403)%Z).
    { intros H. apply in_401_403_spec in H. congruence. }
    split; [tauto|].
    destruct (500 <=? s)%Z eqn:E5; [apply Z.leb_le in E5|apply Z.leb_gt in E5].
    { split; [done|]. split; [lia|]. split; [lia|]. cbn [fst]. tauto. }
    split; [lia|].
    destruct (400 <=? s)%Z eqn:E4; [apply Z.leb_le in E4|apply Z.leb_gt in E4].
    { split; [done|]. split; [lia|]. cbn [fst]. tauto. }
    split; [lia|]. split; [done|]. cbn [fst]. tauto.
Qed.

Lemma dispatch_classifies_witness :
  fst (dispatch env0 request0 (respond 403) ∅)
  = (fst (_track_auth_failure 1000 "203.0.113.7, 10.0.0.1" ∅),
     request_record WARNING "Authentication failure" "auth_failure" env0 request0
       {| status_code := 403;
          response_headers := [("content-type", "application/json")];
          body := "{}" |}
     :: snd (_track_auth_failure 1000 "203.0.113.7, 10.0.0.1" ∅)).
Proof.
  apply (dispatch_classifies env0 request0 (respond 403) ∅ _ eq_refl).
  right. reflexivity.
Defined.

(** *** One record per request, and the correlation header *)

Lemma track_alerts now ip d :
  Forall (fun a => levelname a = CRITICAL ∧ has_request_id a = false)
         (snd (_track_auth_failure now ip d)) ∧
  (length (snd (_track_auth_failure now ip d)) ≤ 2)%nat.
Proof.
  rewrite track_logs. cbv zeta.
  destruct (decide (AUTH_FAILURE_THRESHOLD_IP ≤ _)%nat);
    destruct (decide (AUTH_FAILURE_THRESHOLD_GLOBAL ≤ _)%nat);
    (split; [repeat constructor|cbn; lia]).
Qed.

Lemma filter_no_request_id (alerts : list log_call) :
  Forall (fun a => levelname a = CRITICAL ∧ has_request_id a = false) alerts →
  List.filter has_request_id alerts = [].
Proof.
  induction 1 as [|a alerts [_ Ha] _ IH]; [done|].
  cbn. by rewrite Ha.
Qed.

(** C3 does not hold of the code.  When the handler raises, the same
    exception leaves [dispatch], but nothing is logged and there is no
    response to carry the header.  Had the handler answered 500 itself,
    the request would have been logged as a server error and its response
    stamped. *)
Theorem dispatch_raise_logs_nothing :
  dispatch env0 request0 failing_handler ∅
    = (∅, [], Raise (TypeError "unsupported operand")) ∧
  dispatch env0 request0 (respond 500) ∅
    = (∅,
       [request_record ERROR "Server error" "server_error" env0 request0
          {| status_code := 500;
             response_headers := [("content-type", "application/json")];
             body := "{}" |}],
       Return {| status_code := 500;
                 response_headers :=
                   [("content-type", "application/json");
                    ("x-request-id", "1b4e28ba-2fa1-4d3b-a3f5-ef19b5a7633b")];
                 body := "{}" |}).
Proof.
  split; [reflexivity|].
  rewrite (dispatch_returned env0 request0 (respond 500) ∅ _ eq_refl).
  reflexivity.
Qed.

(** When the handler returns a response, the
    middleware logs exactly one record that carries the correlation id,
    with the method, path, status, source address, user agent, elapsed
    time and an event type; whatever follows it are critical alert records
    of the tracker, at most two; and the response is the handler's with
    the header [X-Request-ID] set to the correlation id.  When the handler
    raises, the same exception leaves the middleware. *)
Theorem dispatch_logs_request env request call_next d :
  (∀ response,
     call_next (set_request_id request (uuid4 env)) = Return response →
     ∃ r alerts,
       snd (fst (dispatch env request call_next d)) = r :: alerts ∧
       List.filter has_request_id (snd (fst (dispatch env request call_next d))) = [r] ∧
       extra r !! "request_id" = Some (VStr (uuid4 env)) ∧
       extra r !! "method" = Some (VStr (method request)) ∧
       extra r !! "path" = Some (VStr (path request)) ∧
       extra r !! "status_code" = Some (VInt (status_code response)) ∧
       extra r !! "client_ip" = Some (VStr (source_address request)) ∧
       extra r !! "user_agent"
         = Some (VStr (headers_get (headers request) "User-Agent" "unknown")) ∧
       extra r !! "response_time_ms"
         = Some (VFloat (round2 ((monotonic_end env - monotonic_start env) * 1000))) ∧
       is_Some (extra r !! "event_type") ∧
       Forall (fun a => levelname a = CRITICAL ∧ has_request_id a = false) alerts ∧
       (length alerts ≤ 2)%nat ∧
       snd (dispatch env request call_next d)
         = Return (set_response_header response "X-Request-ID" (uuid4 env)) ∧
       List.find (fun kv => String.eqb (fst kv) "x-request-id")
                 (response_headers
                    (set_response_header response "X-Request-ID" (uuid4 env)))
         = Some ("x-request-id", uuid4 env) ∧
       status_code (set_response_header response "X-Request-ID" (uuid4 env))
         = status_code response ∧
       body (set_response_header response "X-Request-ID" (uuid4 env))
         = body response) ∧
  (∀ e,
     call_next (set_request_id request (uuid4 env)) = Raise e →
     snd (dispatch env request call_next d) = Raise e).
Proof.
  split; [|intros e Hcall; by rewrite (dispatch_raised _ _ _ _ _ Hcall)].
  intros response Hcall.
  rewrite (dispatch_returned _ _ _ _ _ Hcall). cbv zeta. cbn [fst snd].
  pose proof (track_alerts (time_now env) (source_address request) d)
    as [Hcrit Hlen].
  assert (Hfields : ∀ lv msg ev alerts,
    Forall (fun a => levelname a = CRITICAL ∧ has_request_id a = false) alerts →
    (length alerts ≤ 2)%nat →
    let r := request_record lv msg ev env request response in
    List.filter has_request_id (r :: alerts) = [r] ∧
    extra r !! "request_id" = Some (VStr (uuid4 env)) ∧
    extra r !! "method" = Some (VStr (method request)) ∧
    extra r !! "path" = Some (VStr (path request)) ∧
    extra r !! "status_code" = Some (VInt (status_code response)) ∧
    extra r !! "client_ip" = Some (VStr (source_address request)) ∧
    extra r !! "user_agent"
      = Some (VStr (headers_get (headers request) "User-Agent" "unknown")) ∧
    extra r !! "response_time_ms"
      = Some (VFloat (round2 ((monotonic_end env - monotonic_start env) * 1000))) ∧
    is_Some (extra r !! "event_type") ∧
    Forall (fun a => levelname a = CRITICAL ∧ has_request_id a = false) alerts ∧
    (length alerts ≤ 2)%nat ∧
    @Return Response (set_response_header response "X-Request-ID" (uuid4 env))
      = Return (set_response_header response "X-Request-ID" (uuid4 env)) ∧
    List.find (fun kv => String.eqb (fst kv) "x-request-id")
              (response_headers
                 (set_response_header response "X-Request-ID" (uuid4 env)))
      = Some ("x-request-id", uuid4 env) ∧
    status_code (set_response_header response "X-Request-ID" (uuid4 env))
      = status_code response ∧
    body (set_response_header response "X-Request-ID" (uuid4 env))
      = body response).
  { intros lv msg ev alerts Ha Hl r.
    split.
    { cbn [List.filter]. rewrite (filter_no_request_id _ Ha). reflexivity. }
    do 7 (split; [reflexivity|]).
    split; [by eexists|]. split; [exact Ha|]. split; [exact Hl|].
    split; [reflexivity|]. split; [|split; reflexivity].
    apply (headers_set_find (response_headers response) "X-Request-ID"). }
  destruct (in_401_403 (status_code response)).
  { eexists _, _. split; [reflexivity|]. cbn [fst snd]. by apply Hfields. }
  destruct (500 <=? status_code response)%Z.
  { eexists _, _. split; [reflexivity|]. cbn [snd].
    apply Hfields; [constructor|cbn; lia]. }
  destruct (400 <=? status_code response)%Z.
  { eexists _, _. split; [reflexivity|]. cbn [snd].
    apply Hfields; [constructor|cbn; lia]. }
  eexists _, _. split; [reflexivity|]. cbn [snd].
  apply Hfields; [constructor|cbn; lia].
Qed.

Lemma dispatch_logs_request_witness :
  snd (dispatch env0 request0 (respond 200) ∅)
    = Return (set_response_header
                {| status_code := 200;
                   response_headers := [("content-type", "application/json")];
                   body := "{}" |}
                "X-Request-ID" "1b4e28ba-2fa1-4d3b-a3f5-ef19b5a7633b") ∧
  snd (dispatch env0 request0 failing_handler ∅)
    = Raise (TypeError "unsupported operand").
Proof.
  destruct (dispatch_logs_request env0 request0 (respond 200) ∅) as [Hret _].
  destruct (dispatch_logs_request env0 request0 failing_handler ∅) as [_ Hraise].
  split.
  - destruct (Hret _ eq_refl) as (r & alerts & H). apply H.
  - apply Hraise. reflexivity.
Defined.

(** *** The source address *)

Lemma logged_client_ip env request call_next d response :
  call_next (set_request_id request (uuid4 env)) = Return response →
  ∃ r alerts,
    snd (fst (dispatch env request call_next d)) = r :: alerts ∧
    extra r !! "client_ip" = Some (VStr (source_address request)).
Proof.
  intros Hcall.
  destruct (dispatch_first_record env request call_next d _ Hcall)
    as (lv & msg & ev & alerts & Hlogs).
  eexists _, alerts. split; [exact Hlogs|reflexivity].
Qed.

(** C6 as it is worded fails: of the forwarded-for value
    ["203.0.113.7, 10.0.0.1"] the first value is ["203.0.113.7"], but the
    address logged, and the key the tracker counts under, is the whole
    value. *)
Lemma forwarded_list_is_not_split :
  first_forwarded_value "203.0.113.7, 10.0.0.1" = "203.0.113.7" ∧
  (∃ r alerts,
     snd (fst (dispatch env0 request0 (respond 401) ∅)) = r :: alerts ∧
     extra r !! "client_ip" = Some (VStr "203.0.113.7, 10.0.0.1") ∧
     extra r !! "client_ip" ≠ Some (VStr "203.0.113.7")) ∧
  dom (fst (fst (dispatch env0 request0 (respond 401) ∅)))
    = {[ "203.0.113.7, 10.0.0.1" ]}.
Proof.
  split; [reflexivity|]. split.
  - destruct (logged_client_ip env0 request0 (respond 401) ∅ _ eq_refl)
      as (r & alerts & Hlogs & Hip).
    exists r, alerts. split; [exact Hlogs|]. split; [exact Hip|].
    rewrite Hip. discriminate.
  - vm_compute. reflexivity.
Qed.

(** C6, as the code has it.  The source address that is logged, and under
    which the tracker counts on a 401 or 403, is the value of the first
    [X-Forwarded-For] header as it stands, a comma-separated list being
    kept whole; without that header it is the host of the
    transport-level peer, and ["unknown"] when there is no peer. *)
Theorem dispatch_source_address env request call_next d response :
  call_next (set_request_id request (uuid4 env)) = Return response →
  ∃ source r alerts,
    snd (fst (dispatch env request call_next d)) = r :: alerts ∧
    extra r !! "client_ip" = Some (VStr source) ∧
    ((status_code response = 401 ∨ status_code response = 403)%Z →
       (fst (fst (dispatch env request call_next d)), alerts)
       = _track_auth_failure (time_now env) source d) ∧
    (∀ pre v post,
       headers request = pre ++ ("x-forwarded-for", v) :: post →
       (∀ kv, kv ∈ pre → fst kv ≠ "x-forwarded-for") →
       source = v) ∧
    ((∀ kv, kv ∈ headers request → fst kv ≠ "x-forwarded-for") →
       source = match client request with
                | Some (host, _) => host
                | None => "unknown"
                end).
Proof.
  intros Hcall.
  destruct (logged_client_ip env request call_next d _ Hcall)
    as (r & alerts & Hlogs & Hip).
  exists (source_address request), r, alerts.
  split; [exact Hlogs|]. split; [exact Hip|]. split; [|split].
  - intros Hs.
    pose proof (dispatch_auth_failure env request call_next d _ Hcall Hs)
      as Hauth.
    pose proof (f_equal fst Hauth) as Hd.
    pose proof (f_equal (fun o => tail (snd o)) Hauth) as Ha.
    cbn [fst snd tail] in Hd, Ha. rewrite Hlogs in Ha. cbn [tail] in Ha.
    rewrite Hd, Ha. symmetry. apply surjective_pairing.
  - intros pre v post Hh Hpre. unfold source_address.
    rewrite Hh, find_first_header by done. reflexivity.
  - intros Hnone. unfold source_address. by rewrite find_no_header.
Qed.

Lemma dispatch_source_address_witness :
  ∃ r alerts,
    snd (fst (dispatch env0 request0 (respond 401) ∅)) = r :: alerts ∧
    extra r !! "client_ip" = Some (VStr "203.0.113.7, 10.0.0.1").
Proof.
  destruct (dispatch_source_address env0 request0 (respond 401) ∅ _ eq_refl)
    as (source & r & alerts & Hlogs & Hip & _ & Hfwd & _).
  exists r, alerts. split; [exact Hlogs|].
  rewrite Hip. do 2 f_equal.
  apply (Hfwd [("host", "api.example")] _ [("user-agent", "curl/8.5.0")] eq_refl).
  intros kv Hkv. apply list_elem_of_singleton in Hkv as ->. discriminate.
Defined.

(** *** Alerts leave the response alone *)

(** C8.  The response does not depend on the tracker: whatever the map
    holds, and so whether or not an alert is logged, the middleware
    returns the handler's response with the correlation header set.  The
    records of a call are decided by the counts of that call alone, a
    brute-force record when the client's in-window count reaches [T_ip]
    and then a spray record when the total reaches [T_global]; so a
    brute-force record is logged again by the client's next call while its
    failures stay in the window, and one call can log both. *)
Theorem alerts_are_signals env request call_next d :
  (∀ d', snd (dispatch env request call_next d')
         = snd (dispatch env request call_next d)) ∧
  snd (dispatch env request call_next d)
    = match call_next (set_request_id request (uuid4 env)) with
      | Return response =>
          Return (set_response_header response "X-Request-ID" (uuid4 env))
      | Raise e => Raise e
      end ∧
  (∀ now ip d0,
     let n := S (length (filter (fun t => (now - inject_Z AUTH_FAILURE_WINDOW < t)%Q)
                                (getitem d0 ip))) in
     let total :=
       total_failures (now - inject_Z AUTH_FAILURE_WINDOW)
                      (fst (_track_auth_failure now ip d0)) in
     snd (_track_auth_failure now ip d0) =
       (if decide (AUTH_FAILURE_THRESHOLD_IP ≤ n)%nat
        then [brute_force_record ip n] else []) ++
       (if decide (AUTH_FAILURE_THRESHOLD_GLOBAL ≤ total)%nat
        then [spray_record total] else [])) ∧
  (∀ now now' ip d0 n,
     brute_force_record ip n ∈ snd (_track_auth_failure now ip d0) →
     (∀ t, t ∈ getitem (fst (_track_auth_failure now ip d0)) ip →
           (now' - inject_Z AUTH_FAILURE_WINDOW < t)%Q) →
     brute_force_record ip (S n)
       ∈ snd (_track_auth_failure now' ip (fst (_track_auth_failure now ip d0)))) ∧
  (∃ now ip d0,
     snd (_track_auth_failure now ip d0)
     = [brute_force_record ip 20; spray_record 20]).
Proof.
  assert (Hresp : ∀ d',
    snd (dispatch env request call_next d')
    = match call_next (set_request_id request (uuid4 env)) with
      | Return response =>
          Return (set_response_header response "X-Request-ID" (uuid4 env))
      | Raise e => Raise e
      end).
  { intros d'.
    destruct (call_next (set_request_id request (uuid4 env))) as [response|e] eqn:E.
    - by rewrite (dispatch_returned _ _ _ _ _ E).
    - by rewrite (dispatch_raised _ _ _ _ _ E). }
  split; [intros d'; by rewrite !Hresp|]. split; [apply Hresp|].
  split; [intros now ip d0; apply track_logs|].
  split; [intros now now' ip d0 n; apply track_brute_force_again|].
  exists 19%Q, "10.0.0.1", (fst (record_all "10.0.0.1" (ticks 19) ∅)).
  vm_compute. reflexivity.
Qed.

Lemma alerts_are_signals_witness :
  let d0 := fst (record_all "10.0.0.1" (ticks 9) ∅) in
  brute_force_record "10.0.0.1" 10 ∈ snd (_track_auth_failure 9 "10.0.0.1" d0) ∧
  brute_force_record "10.0.0.1" 11
    ∈ snd (_track_auth_failure 10 "10.0.0.1"
             (fst (_track_auth_failure 9 "10.0.0.1" d0))).
Proof.
  intros d0.
  assert (Hfirst : brute_force_record "10.0.0.1" 10
                     ∈ snd (_track_auth_failure 9 "10.0.0.1" d0)).
  { rewrite track_logs. cbv zeta. apply elem_of_app. left.
    assert (pruned 9 (getitem d0 "10.0.0.1") = ticks 9) as ->
      by (vm_compute; reflexivity).
    left. }
  split; [exact Hfirst|].
  destruct (alerts_are_signals env0 request0 (respond 401) ∅)
    as (_ & _ & _ & Hagain & _).
  apply (Hagain 9%Q 10%Q "10.0.0.1" d0 10%nat Hfirst).
  rewrite track_getitem.
  assert (pruned 9 (getitem d0 "10.0.0.1") = ticks 9) as ->
    by (vm_compute; reflexivity).
  apply Forall_forall. repeat constructor.
Defined.

End DispatchProps.

(** ** More on the failure tracker *)
Module TrackerMore.
Import Middleware TrackerProps.

Implicit Types (d : gmap string (list Q)) (l times : list Q) (now t cutoff : Q)
  (f g : list Q -> nat).

#[local] Arguments _track_auth_failure : simpl never.

(** *** Sums over the map *)

Lemma map_sum_insert f k l d :
  map_sum f (<[k:=l]> d) = (f l + map_sum f (delete k d))%nat.
Proof.
  unfold map_sum. rewrite <- (insert_delete_eq d).
  rewrite map_to_list_insert by apply lookup_delete_eq.
  reflexivity.
Qed.

Lemma map_sum_delete f k d :
  f [] = 0%nat →
  map_sum f d = (f (getitem d k) + map_sum f (delete k d))%nat.
Proof.
  intros Hnil. unfold getitem. destruct (d !! k) as [l|] eqn:E.
  - unfold map_sum. rewrite <- (map_to_list_delete d k l E). reflexivity.
  - rewrite delete_id by done. simpl. by rewrite Hnil.
Qed.

Lemma map_sum_le f g d :
  (∀ k l, d !! k = Some l → (f l ≤ g l)%nat) → (map_sum f d ≤ map_sum g d)%nat.
Proof.
  intros H. unfold map_sum.
  assert (Hl : ∀ kv, kv ∈ map_to_list d → (f (snd kv) ≤ g (snd kv))%nat).
  { intros [k l] Hin. apply elem_of_map_to_list in Hin. by apply (H k). }
  induction (map_to_list d) as [|kv L IH]; [done|].
  cbn. specialize (Hl kv (list_elem_of_here _ _)) as Hkv.
  assert ((sum_list ((fun kv => f (snd kv)) <$> L)
           ≤ sum_list ((fun kv => g (snd kv)) <$> L))%nat).
  { apply IH. intros kv' Hin. apply Hl. by right. }
  lia.
Qed.

Lemma map_sum_eq f g d :
  (∀ k l, d !! k = Some l → f l = g l) → map_sum f d = map_sum g d.
Proof.
  intros H. apply Nat.le_antisymm; apply map_sum_le; intros k l Hk;
    by rewrite (H k l Hk).
Qed.

Lemma total_failures_counted cutoff d :
  total_failures cutoff d = map_sum (counted cutoff) d.
Proof.
  unfold total_failures, map_sum, counted.
  induction (map_to_list d) as [|kv L IH]; [done|].
  destruct (decide (Exists (fun t => (cutoff < t)%Q) (snd kv))) as [Hx|Hx].
  - rewrite filter_cons_True by done. cbn.
    rewrite decide_True by done. by rewrite IH.
  - rewrite filter_cons_False by done. cbn.
    rewrite decide_False by done. by rewrite IH.
Qed.

Lemma pruned_aggregate_sum cutoff d :
  pruned_aggregate cutoff d
  = map_sum (fun l => length (filter (fun t => (cutoff < t)%Q) l)) d.
Proof. reflexivity. Qed.

Lemma filter_fresh_nil cutoff l :
  ¬ Exists (fun t => (cutoff < t)%Q) l → filter (fun t => (cutoff < t)%Q) l = [].
Proof.
  intros Hx. induction l as [|a l IH]; [done|].
  rewrite filter_cons_False.
  - apply IH. intros H. apply Hx. by right.
  - intros H. apply Hx. by left.
Qed.

Lemma filter_fresh_all cutoff l :
  Forall (fun t => (cutoff < t)%Q) l → filter (fun t => (cutoff < t)%Q) l = l.
Proof.
  induction 1 as [|a l Ha _ IH]; [done|].
  rewrite filter_cons_True by done. by rewrite IH.
Qed.

Lemma fresh_le_counted cutoff l :
  (length (filter (fun t => (cutoff < t)%Q) l) ≤ counted cutoff l)%nat.
Proof.
  unfold counted. destruct (decide _) as [|Hx].
  - apply length_filter.
  - by rewrite filter_fresh_nil.
Qed.

Lemma counted_le_length cutoff l : (counted cutoff l ≤ length l)%nat.
Proof. unfold counted. destruct (decide _); lia. Qed.

(** *** The aggregate never under-counts *)

Lemma track_total now ip d :
  total_failures (cutoff_at now) (fst (_track_auth_failure now ip d))
  = (S (length (pruned now (getitem d ip)))
     + map_sum (counted (cutoff_at now)) (delete ip d))%nat.
Proof.
  rewrite total_failures_counted, track_map, map_sum_insert.
  f_equal. unfold counted. rewrite decide_True.
  - rewrite length_app. cbn. lia.
  - apply Exists_app. right. left. apply now_fresh.
Qed.

Lemma spray_logged now ip d :
  (AUTH_FAILURE_THRESHOLD_GLOBAL
   ≤ total_failures (cutoff_at now) (fst (_track_auth_failure now ip d)))%nat →
  spray_record (total_failures (cutoff_at now) (fst (_track_auth_failure now ip d)))
    ∈ snd (_track_auth_failure now ip d).
Proof.
  intros Hge. rewrite (track_logs now ip d). cbv zeta.
  apply elem_of_app. right. fold (cutoff_at now).
  rewrite decide_True by done. left.
Qed.

Lemma brute_force_logged now ip d n :
  brute_force_record ip n ∈ snd (_track_auth_failure now ip d) →
  n = S (length (pruned now (getitem d ip))) ∧ (AUTH_FAILURE_THRESHOLD_IP ≤ n)%nat.
Proof.
  intros Hbf. rewrite track_logs in Hbf. cbv zeta in Hbf.
  apply elem_of_app in Hbf as [Hbf|Hbf].
  - destruct (decide _) as [Hge|]; [|by apply elem_of_nil in Hbf].
    apply list_elem_of_singleton in Hbf.
    apply (f_equal (fun r => extra r !! "failure_count")) in Hbf.
    cbv [brute_force_record extra] in Hbf.
    rewrite !lookup_insert_ne, !lookup_insert_eq in Hbf by discriminate.
    injection Hbf as Hbf. apply Nat2Z.inj in Hbf. by subst n.
  - destruct (decide _); [|by apply elem_of_nil in Hbf].
    apply list_elem_of_singleton in Hbf.
    apply (f_equal message) in Hbf. discriminate Hbf.
Qed.

(** X1.  The total a call compares with the global threshold is never
    below the number of failures inside the window: whenever the pruned
    aggregate of the map reaches the threshold, the spray record is
    logged. *)
Theorem spray_never_undercounts now ip d :
  let d' := fst (_track_auth_failure now ip d) in
  (pruned_aggregate (cutoff_at now) d' ≤ total_failures (cutoff_at now) d')%nat ∧
  ((AUTH_FAILURE_THRESHOLD_GLOBAL ≤ pruned_aggregate (cutoff_at now) d')%nat →
   spray_record (total_failures (cutoff_at now) d')
     ∈ snd (_track_auth_failure now ip d)).
Proof.
  intros d'.
  assert (Hle : (pruned_aggregate (cutoff_at now) d'
                 ≤ total_failures (cutoff_at now) d')%nat).
  { rewrite total_failures_counted, pruned_aggregate_sum.
    apply map_sum_le. intros k l _. apply fresh_le_counted. }
  split; [exact Hle|]. intros Hge. apply spray_logged. fold d'. lia.
Qed.

Lemma spray_never_undercounts_witness :
  spray_record (total_failures (cutoff_at 1000)
                  (fst (_track_auth_failure 1000 "10.0.0.1" hot_map)))
    ∈ snd (_track_auth_failure 1000 "10.0.0.1" hot_map).
Proof.
  apply (spray_never_undercounts 1000 "10.0.0.1" hot_map).
  vm_compute. apply le_n.
Defined.

(** X2.  When no sequence of the map mixes timestamps inside and outside
    the window, the total the code computes is the pruned aggregate. *)
Theorem spray_exact_without_mixed_sequences cutoff d :
  (∀ k l, d !! k = Some l →
     Forall (fun t => (cutoff < t)%Q) l ∨ Forall (fun t => ¬ (cutoff < t)%Q) l) →
  total_failures cutoff d = pruned_aggregate cutoff d.
Proof.
  intros H. rewrite total_failures_counted, pruned_aggregate_sum.
  apply map_sum_eq. intros k l Hk. unfold counted.
  destruct (H k l Hk) as [Hin|Hout].
  - rewrite filter_fresh_all by exact Hin.
    destruct (decide _) as [|Hx]; [done|].
    destruct l as [|a l]; [done|]. destruct Hx. left. by inversion Hin.
  - assert (Hx : ¬ Exists (fun t => (cutoff < t)%Q) l).
    { intros Hx. apply Exists_exists in Hx as (t & Ht & Hlt).
      rewrite Forall_forall in Hout. by apply (Hout t). }
    rewrite decide_False by done. by rewrite filter_fresh_nil.
Qed.

Lemma spray_exact_without_mixed_sequences_witness :
  let d : gmap string (list Q) :=
    <["10.0.0.1" := [500; 600]%Q]> {[ "10.0.0.2" := [1; 2]%Q ]} in
  total_failures 100 d = pruned_aggregate 100 d.
Proof.
  intros d. apply spray_exact_without_mixed_sequences.
  intros k l Hk. unfold d in Hk.
  apply lookup_insert_Some in Hk as [[_ <-]|[_ Hk]].
  - left. repeat constructor.
  - apply lookup_singleton_Some in Hk as [_ <-].
    right. repeat constructor; intros H; discriminate H.
Defined.

(** X3.  The total of a call counts at least the caller's own sequence: a
    brute-force record with count [n] comes with a total of [n] or more, so
    a count that reaches the global threshold brings the spray record
    along. *)
Theorem spray_covers_brute_force now ip d n :
  brute_force_record ip n ∈ snd (_track_auth_failure now ip d) →
  (n ≤ total_failures (cutoff_at now) (fst (_track_auth_failure now ip d)))%nat ∧
  ((AUTH_FAILURE_THRESHOLD_GLOBAL ≤ n)%nat →
   spray_record (total_failures (cutoff_at now) (fst (_track_auth_failure now ip d)))
     ∈ snd (_track_auth_failure now ip d)).
Proof.
  intros Hbf. apply brute_force_logged in Hbf as [-> _].
  assert (Hle : (S (length (pruned now (getitem d ip)))
                 ≤ total_failures (cutoff_at now)
                     (fst (_track_auth_failure now ip d)))%nat)
    by (rewrite track_total; lia).
  split; [exact Hle|]. intros Hge. apply spray_logged. lia.
Qed.

Lemma spray_covers_brute_force_witness :
  spray_record (total_failures (cutoff_at 1000)
                  (fst (_track_auth_failure 1000 "203.0.113.7, 10.0.0.1" hot_map)))
    ∈ snd (_track_auth_failure 1000 "203.0.113.7, 10.0.0.1" hot_map).
Proof.
  apply (spray_covers_brute_force 1000 "203.0.113.7, 10.0.0.1" hot_map 20).
  - assert (snd (_track_auth_failure 1000 "203.0.113.7, 10.0.0.1" hot_map)
            = [brute_force_record "203.0.113.7, 10.0.0.1" 20; spray_record 20])
      as -> by (vm_compute; reflexivity).
    left.
  - apply le_n.
Defined.

(** *** Runs of calls *)

Lemma record_calls_cons now ip calls d :
  record_calls ((now, ip) :: calls) d =
    (fst (record_calls calls (fst (_track_auth_failure now ip d))),
     snd (_track_auth_failure now ip d)
       :: snd (record_calls calls (fst (_track_auth_failure now ip d)))).
Proof.
  cbn [record_calls].
  destruct (_track_auth_failure now ip d) as [d1 out]. cbn [fst snd].
  by destruct (record_calls calls d1).
Qed.

Lemma record_calls_app calls1 calls2 : ∀ d,
  fst (record_calls (calls1 ++ calls2) d)
  = fst (record_calls calls2 (fst (record_calls calls1 d))).
Proof.
  induction calls1 as [|[now ip] calls1 IH]; intros d; [done|].
  rewrite <- app_comm_cons, !record_calls_cons. cbn [fst]. apply IH.
Qed.

Lemma stored_track now ip d :
  (stored (fst (_track_auth_failure now ip d))
   = S (length (pruned now (getitem d ip))) + map_sum length (delete ip d))%nat ∧
  (stored d = length (getitem d ip) + map_sum length (delete ip d))%nat.
Proof.
  unfold stored. split.
  - rewrite track_map, map_sum_insert, length_app. cbn. lia.
  - by apply map_sum_delete.
Qed.

Lemma stored_track_le now ip d :
  (stored (fst (_track_auth_failure now ip d)) ≤ S (stored d))%nat.
Proof.
  destruct (stored_track now ip d) as [-> ->].
  pose proof (length_filter (fun t => (cutoff_at now < t)%Q) (getitem d ip)).
  unfold pruned. lia.
Qed.

Lemma total_le_stored cutoff d : (total_failures cutoff d ≤ stored d)%nat.
Proof.
  rewrite total_failures_counted. apply map_sum_le.
  intros k l _. apply counted_le_length.
Qed.

(** X4.  The map grows by at most one timestamp per call, whoever the
    clients and whatever the times. *)
Theorem stored_grows_by_calls calls : ∀ d,
  (stored (fst (record_calls calls d)) ≤ stored d + length calls)%nat.
Proof.
  induction calls as [|[now ip] calls IH]; intros d.
  - cbn. lia.
  - rewrite record_calls_cons. cbn [fst length].
    specialize (IH (fst (_track_auth_failure now ip d))).
    pose proof (stored_track_le now ip d). lia.
Qed.

(** X5.  A spray record needs twenty stored failures: a run of fewer than
    twenty calls from the empty map logs none, whoever the clients and
    whatever the times. *)
Theorem no_spray_before_threshold calls :
  (length calls < AUTH_FAILURE_THRESHOLD_GLOBAL)%nat →
  Forall (fun out => List.filter is_spray out = [])
         (snd (record_calls calls ∅)).
Proof.
  assert (Hgen : ∀ calls d,
    (stored d + length calls < AUTH_FAILURE_THRESHOLD_GLOBAL)%nat →
    Forall (fun out => List.filter is_spray out = [])
           (snd (record_calls calls d))).
  { clear calls. induction calls as [|[now ip] calls IH]; intros d Hlt.
    - constructor.
    - rewrite record_calls_cons. cbn [snd length] in *.
      pose proof (stored_track_le now ip d) as Hst.
      constructor.
      + rewrite track_spray. cbv zeta.
        pose proof (total_le_stored (cutoff_at now)
                      (fst (_track_auth_failure now ip d))).
        rewrite decide_False; [done|lia].
      + apply IH. lia. }
  intros Hlt. apply Hgen.
  unfold stored, map_sum. rewrite map_to_list_empty. cbn. lia.
Qed.

Lemma no_spray_before_threshold_witness :
  Forall (fun out => List.filter is_spray out = [])
         (snd (record_calls [(0%Q, "10.0.0.1"); (1%Q, "10.0.0.2"); (2%Q, "10.0.0.1")] ∅)).
Proof. apply no_spray_before_threshold. cbn. unfold AUTH_FAILURE_THRESHOLD_GLOBAL. lia. Defined.

Lemma getitem_elem d k t :
  t ∈ getitem d k → ∃ l, d !! k = Some l ∧ t ∈ l.
Proof.
  unfold getitem. destruct (d !! k) as [l|]; [by exists l|].
  intros H. by apply elem_of_nil in H.
Qed.

(** While all the times lie in one window, nothing is pruned: the map
    holds call times only and one more with every call. *)
Lemma run_in_window (T : list Q) calls : ∀ d,
  (∀ a b, a ∈ T → b ∈ T → (cutoff_at b < a)%Q) →
  (∀ k l t, d !! k = Some l → t ∈ l → t ∈ T) →
  (∀ b, b ∈ calls.*1 → b ∈ T) →
  (∀ k l t, fst (record_calls calls d) !! k = Some l → t ∈ l → t ∈ T) ∧
  stored (fst (record_calls calls d)) = (stored d + length calls)%nat.
Proof.
  induction calls as [|[now ip] calls IH]; intros d Hwin Hd Hcalls.
  - cbn. split; [exact Hd|lia].
  - rewrite record_calls_cons. cbn [fst length].
    assert (Hnow : now ∈ T) by (apply Hcalls; left).
    assert (Hkeep : pruned now (getitem d ip) = getitem d ip).
    { apply pruned_all. intros t Ht.
      apply getitem_elem in Ht as (l & Hl & Ht).
      apply Hwin; [by apply (Hd ip l)|done]. }
    destruct (IH (fst (_track_auth_failure now ip d))) as [IH1 IH2].
    + exact Hwin.
    + intros k l t Hk Ht. rewrite track_map, Hkeep in Hk.
      apply lookup_insert_Some in Hk as [[_ <-]|[_ Hk]]; [|by apply (Hd k l)].
      apply elem_of_app in Ht as [Ht|Ht].
      * apply getitem_elem in Ht as (l & Hl & Ht). by apply (Hd ip l).
      * by apply list_elem_of_singleton in Ht as ->.
    + intros b Hb. apply Hcalls. by right.
    + split; [exact IH1|]. rewrite IH2.
      destruct (stored_track now ip d) as [-> ->]. rewrite Hkeep. lia.
Qed.

(** X6.  From the empty map, while the times of all the calls lie within
    one window of each other, the total of a call is the number of calls
    so far and equals the pruned aggregate, whoever the clients: the spray
    record is logged by the twentieth call and every later one, with that
    number as its total, and by none before. *)
Theorem spray_counts_calls_in_window pre now ip :
  (∀ a b, a ∈ (pre ++ [(now, ip)]).*1 → b ∈ (pre ++ [(now, ip)]).*1 →
     (b - inject_Z AUTH_FAILURE_WINDOW < a)%Q) →
  let d := fst (record_calls pre ∅) in
  let d' := fst (_track_auth_failure now ip d) in
  total_failures (cutoff_at now) d' = S (length pre) ∧
  pruned_aggregate (cutoff_at now) d' = S (length pre) ∧
  List.filter is_spray (snd (_track_auth_failure now ip d)) =
    if decide (AUTH_FAILURE_THRESHOLD_GLOBAL ≤ S (length pre))%nat
    then [spray_record (S (length pre))] else [].
Proof.
  intros Hwin d d'.
  destruct (run_in_window ((pre ++ [(now, ip)]).*1) (pre ++ [(now, ip)]) ∅)
    as [Hin Hst].
  { exact Hwin. }
  { intros k l t Hk. by rewrite lookup_empty in Hk. }
  { done. }
  rewrite record_calls_app, record_calls_cons in Hin, Hst.
  cbn [record_calls fst] in Hin, Hst. fold d in Hin, Hst. fold d' in Hin, Hst.
  assert (Hstored : stored d' = S (length pre)).
  { rewrite Hst, length_app. unfold stored, map_sum.
    rewrite map_to_list_empty. cbn. lia. }
  assert (Hnow : now ∈ (pre ++ [(now, ip)]).*1).
  { rewrite fmap_app. apply elem_of_app. right. left. }
  assert (Hfresh : ∀ k l, d' !! k = Some l →
                   Forall (fun t => (cutoff_at now < t)%Q) l).
  { intros k l Hk. apply Forall_forall. intros t Ht.
    apply Hwin; [by apply (Hin k l)|exact Hnow]. }
  assert (Htotal : total_failures (cutoff_at now) d' = S (length pre)).
  { rewrite <- Hstored, total_failures_counted. apply map_sum_eq.
    intros k l Hk. specialize (Hfresh k l Hk). unfold counted.
    destruct (decide _) as [|Hx]; [done|].
    destruct l as [|a l]; [done|]. destruct Hx. left. by inversion Hfresh. }
  split; [exact Htotal|]. split.
  - rewrite <- Hstored, pruned_aggregate_sum. apply map_sum_eq.
    intros k l Hk. by rewrite filter_fresh_all by by apply (Hfresh k).
  - rewrite track_spray. cbv zeta. fold d'. by rewrite Htotal.
Qed.

Lemma spray_counts_calls_in_window_witness :
  List.filter is_spray
    (snd (_track_auth_failure 30 "10.0.0.3"
            (fst (record_calls [(10%Q, "10.0.0.1"); (20%Q, "10.0.0.2")] ∅))))
  = [].
Proof.
  assert (Hin : ∀ a, a ∈ [10; 20; 30]%Q → (10 <= a)%Q ∧ (a <= 30)%Q).
  { apply Forall_forall. repeat constructor; discriminate. }
  destruct (spray_counts_calls_in_window
              [(10%Q, "10.0.0.1"); (20%Q, "10.0.0.2")] 30 "10.0.0.3")
    as (_ & _ & H).
  - intros a b Ha Hb. apply Hin in Ha, Hb.
    unfold AUTH_FAILURE_WINDOW, inject_Z. lra.
  - exact H.
Defined.

(** *** Order and keys *)

Lemma StronglySorted_filter_fresh cutoff l :
  StronglySorted Qle l → StronglySorted Qle (filter (fun t => (cutoff < t)%Q) l).
Proof.
  induction 1 as [|a l _ IH Ha]; [constructor|].
  destruct (decide (cutoff < a)%Q).
  - rewrite filter_cons_True by done. constructor; [done|].
    apply Forall_forall. intros t Ht. apply list_elem_of_filter in Ht as [_ Ht].
    rewrite Forall_forall in Ha. by apply Ha.
  - by rewrite filter_cons_False.
Qed.

(** X7.  While the clock does not go backwards a client's sequence stays
    in time order: if the stored sequence followed by the times of the
    calls is non-decreasing, so is the sequence after the run. *)
Theorem record_all_keeps_order ip ts : ∀ d,
  StronglySorted Qle (getitem d ip ++ ts) →
  StronglySorted Qle (getitem (fst (record_all ip ts d)) ip).
Proof.
  induction ts as [|t ts IH]; intros d Hs.
  - cbn. by rewrite app_nil_r in Hs.
  - rewrite record_all_cons. cbn [fst]. apply IH.
    rewrite track_getitem, <- app_assoc. cbn [app].
    apply StronglySorted_app in Hs as (Hle & Hl & Hr).
    apply StronglySorted_app_2; [|by apply StronglySorted_filter_fresh|done].
    intros x1 x2 Hx1 Hx2. apply Hle; [|done].
    unfold pruned in Hx1. by apply list_elem_of_filter in Hx1 as [_ ?].
Qed.

Lemma record_all_keeps_order_witness :
  StronglySorted Qle
    (getitem (fst (record_all "10.0.0.1" [400; 500]%Q {[ "10.0.0.1" := [0%Q; 150%Q] ]}))
             "10.0.0.1").
Proof.
  apply record_all_keeps_order.
  unfold getitem. rewrite lookup_singleton_eq. cbn.
  repeat constructor; discriminate.
Defined.

(** X8.  Keys are created by the first failure of a client and never
    removed: after a run the keys of the map are the old ones and the
    clients of the calls. *)
Theorem tracked_clients calls : ∀ d,
  dom (fst (record_calls calls d)) = dom d ∪ list_to_set (calls.*2).
Proof.
  induction calls as [|[now ip] calls IH]; intros d.
  - cbn. set_solver.
  - rewrite record_calls_cons. cbn [fst]. rewrite IH, track_map, dom_insert_L.
    rewrite fmap_cons, list_to_set_cons. cbn [snd]. set_solver.
Qed.

End TrackerMore.

(** ** The JSON formatter *)
Module LoggingProps.
Import Middleware Logging.

Implicit Types (entry : list (string * value)) (record : log_call).

Lemma dict_set_fresh entry key v :
  key ∉ entry.*1 → dict_set entry key v = entry ++ [(key, v)].
Proof.
  induction entry as [|kv entry IH]; intros Hk; [done|].
  cbn [dict_set]. rewrite fmap_cons in Hk.
  apply not_elem_of_cons in Hk as [Hne Hk].
  destruct (String.eqb_spec (fst kv) key) as [E|_]; [by destruct Hne|].
  cbn. by rewrite IH.
Qed.

(** The loop over the fields, for fields that are distinct and not yet in
    the dict: each field the record carries is appended. *)
Lemma copy_fields record fields : ∀ entry,
  NoDup fields → (∀ f, f ∈ fields → f ∉ entry.*1) →
  fold_left
    (fun entry field =>
       match extra record !! field with
       | Some v => dict_set entry field v
       | None => entry
       end) fields entry
  = entry ++ omap (fun field => (fun v => (field, v)) <$> extra record !! field) fields.
Proof.
  induction fields as [|f fields IH]; intros entry Hnd Hfresh.
  - cbn. by rewrite app_nil_r.
  - apply NoDup_cons in Hnd as [Hf Hnd]. cbn [fold_left omap list_omap].
    destruct (extra record !! f) as [v|] eqn:E; cbn.
    + rewrite dict_set_fresh by (apply Hfresh; left).
      rewrite IH, <- app_assoc; [done|done|].
      intros f' Hf'. rewrite fmap_app. cbn. intros Hin.
      apply elem_of_app in Hin as [Hin|Hin].
      * by apply (Hfresh f'); [right|].
      * apply list_elem_of_singleton in Hin as ->. done.
    + apply IH; [done|]. intros f' Hf'. apply Hfresh. by right.
Qed.

Lemma FIELDS_NoDup : NoDup FIELDS.
Proof. apply (bool_decide_unpack _). by vm_compute. Qed.

Lemma log_entry_eq timestamp logger record :
  log_entry timestamp logger record =
    [("timestamp", VStr timestamp);
     ("level", VStr (levelname_str (levelname record)));
     ("logger", VStr logger);
     ("message", VStr (message record))]
    ++ omap (fun field => (fun v => (field, v)) <$> extra record !! field) FIELDS.
Proof.
  unfold log_entry. apply copy_fields; [apply FIELDS_NoDup|].
  intros f Hf. cbn.
  assert (Hbase : Forall (fun f => f ∉ ["timestamp"; "level"; "logger"; "message"])
                         FIELDS).
  { apply (bool_decide_unpack _). by vm_compute. }
  rewrite Forall_forall in Hbase. by apply Hbase.
Qed.

Lemma omap_fields_keys record fields k :
  k ∈ (omap (fun field => (fun v => (field, v)) <$> extra record !! field) fields).*1 ↔
  k ∈ fields ∧ is_Some (extra record !! k).
Proof.
  induction fields as [|f fields IH].
  - cbn. split; [intros H; by apply elem_of_nil in H|intros [H _]; by apply elem_of_nil in H].
  - cbn [omap list_omap]. destruct (extra record !! f) as [v|] eqn:E; cbn.
    + rewrite elem_of_cons, IH, elem_of_cons. split.
      * intros [->|[? ?]]; [split; [by left|by rewrite E]|split; [by right|done]].
      * intros [[->|?] ?]; [by left|by right].
    + rewrite IH, elem_of_cons. split.
      * intros [? ?]. split; [by right|done].
      * intros [[->|?] Hs]; [|done]. rewrite E in Hs. by destruct Hs.
Qed.

Lemma omap_fields_NoDup record fields :
  NoDup fields →
  NoDup (omap (fun field => (fun v => (field, v)) <$> extra record !! field) fields).*1.
Proof.
  induction 1 as [|f fields Hf Hnd IH]; [constructor|].
  cbn [omap list_omap]. destruct (extra record !! f) as [v|] eqn:E; cbn; [|done].
  constructor; [|done]. intros Hin. apply omap_fields_keys in Hin as [Hin _]. done.
Qed.

(** X9.  A log line has the four fixed entries first and then, in the
    formatter's order, exactly those of its ten fields that the record
    carries, each with the record's value; no key occurs twice, and an
    extra under any other name is not written. *)
Theorem log_entry_fields timestamp logger record :
  log_entry timestamp logger record =
    [("timestamp", VStr timestamp);
     ("level", VStr (levelname_str (levelname record)));
     ("logger", VStr logger);
     ("message", VStr (message record))]
    ++ omap (fun field => (fun v => (field, v)) <$> extra record !! field) FIELDS ∧
  NoDup (log_entry timestamp logger record).*1 ∧
  ∀ k, k ∈ (log_entry timestamp logger record).*1 ↔
       k ∈ ["timestamp"; "level"; "logger"; "message"] ∨
       (k ∈ FIELDS ∧ is_Some (extra record !! k)).
Proof.
  split; [apply log_entry_eq|]. rewrite log_entry_eq, fmap_app. split.
  - apply NoDup_app. split; [|split].
    + apply (bool_decide_unpack _). by vm_compute.
    + intros k Hbase Hin. apply omap_fields_keys in Hin as [Hin _].
      assert (Hdis : Forall (fun f => f ∉ ["timestamp"; "level"; "logger"; "message"])
                            FIELDS).
      { apply (bool_decide_unpack _). by vm_compute. }
      rewrite Forall_forall in Hdis. by apply (Hdis k).
    + apply omap_fields_NoDup, FIELDS_NoDup.
  - intros k. rewrite elem_of_app, omap_fields_keys. reflexivity.
Qed.

(** X10.  The line of a request record carries the whole schema: the
    four fixed entries and the eight request fields, in this order. *)
Theorem request_log_line timestamp logger lv msg ev env request response :
  log_entry timestamp logger (request_record lv msg ev env request response) =
    [("timestamp", VStr timestamp);
     ("level", VStr (levelname_str lv));
     ("logger", VStr logger);
     ("message", VStr msg);
     ("request_id", VStr (uuid4 env));
     ("method", VStr (method request));
     ("path", VStr (path request));
     ("status_code", VInt (status_code response));
     ("client_ip", VStr (source_address request));
     ("user_agent", VStr (headers_get (headers request) "User-Agent" "unknown"));
     ("response_time_ms",
      VFloat (round2 ((monotonic_end env - monotonic_start env) * 1000)));
     ("event_type", VStr ev)].
Proof. reflexivity. Qed.

(** X11.  The counts of the alerts do not reach the log: [failure_count],
    [total_failures] and [window_seconds] are not among the formatter's
    fields, so a brute-force line has the client address and the event
    type only, a spray line the event type only, and two alerts that
    differ in their count give the same line. *)
Theorem alert_lines_drop_counts json_dumps timestamp logger ip n m :
  log_entry timestamp logger (brute_force_record ip n) =
    [("timestamp", VStr timestamp); ("level", VStr "CRITICAL");
     ("logger", VStr logger);
     ("message", VStr "Possible brute force attack detected");
     ("client_ip", VStr ip); ("event_type", VStr "brute_force_detected")] ∧
  log_entry timestamp logger (spray_record n) =
    [("timestamp", VStr timestamp); ("level", VStr "CRITICAL");
     ("logger", VStr logger);
     ("message", VStr "Possible credential spray attack detected");
     ("event_type", VStr "spray_attack_detected")] ∧
  format json_dumps timestamp logger (brute_force_record ip n)
    = format json_dumps timestamp logger (brute_force_record ip m) ∧
  format json_dumps timestamp logger (spray_record n)
    = format json_dumps timestamp logger (spray_record m).
Proof. repeat split; reflexivity. Qed.

End LoggingProps.

(** ** Validation of a joke's text *)
Module SchemasProps.
Import Schemas.

Implicit Types (v : text) (c : N).

Lemma lstrip_suffix v : ∃ pre, v = pre ++ lstrip v ∧ Forall (fun c => isspace c = true) pre.
Proof.
  induction v as [|c v (pre & Hv & Hpre)]; [by exists []|].
  cbn [lstrip]. destruct (isspace c) eqn:E.
  - exists (c :: pre). split; [by rewrite Hv at 1|by constructor].
  - by exists [].
Qed.

Lemma lstrip_head v c : head (lstrip v) = Some c → isspace c = false.
Proof.
  induction v as [|c' v IH]; [done|].
  cbn [lstrip]. destruct (isspace c') eqn:E; [done|].
  cbn. by intros [= <-].
Qed.

Lemma lstrip_clean v :
  (∀ c, head v = Some c → isspace c = false) → lstrip v = v.
Proof. destruct v as [|c v]; [done|]. intros H. cbn. by rewrite (H c). Qed.

Lemma lstrip_spaces v : Forall (fun c => isspace c = true) v → lstrip v = [].
Proof. induction 1 as [|c v Hc _ IH]; [done|]. cbn. by rewrite Hc. Qed.

Lemma lstrip_last v : lstrip v ≠ [] → last (lstrip v) = last v.
Proof.
  intros Hne. destruct (lstrip_suffix v) as (pre & Hv & _).
  rewrite Hv at 2. rewrite last_app.
  destruct (last (lstrip v)) eqn:E; [done|].
  apply last_None in E. done.
Qed.

Lemma lstrip_length v : (length (lstrip v) ≤ length v)%nat.
Proof.
  destruct (lstrip_suffix v) as (pre & Hv & _).
  rewrite Hv at 2. rewrite length_app. lia.
Qed.

Lemma strip_length v : (length (strip v) ≤ length v)%nat.
Proof.
  unfold strip. rewrite length_reverse.
  pose proof (lstrip_length (reverse (lstrip v))) as H.
  rewrite length_reverse in H. pose proof (lstrip_length v). lia.
Qed.

Lemma strip_ends v :
  (∀ c, head (strip v) = Some c → isspace c = false) ∧
  (∀ c, last (strip v) = Some c → isspace c = false).
Proof.
  unfold strip. split; intros c.
  - rewrite head_reverse. intros Hl.
    assert (Hne : lstrip (reverse (lstrip v)) ≠ []).
    { intros E. by rewrite E in Hl. }
    rewrite lstrip_last, last_reverse in Hl by done.
    by apply (lstrip_head v).
  - rewrite last_reverse. apply lstrip_head.
Qed.

Lemma validate_in_range v :
  (10 ≤ length v ≤ 500)%nat → validate_joke_text v = sanitize_text v.
Proof.
  intros [Hlo Hhi]. unfold validate_joke_text.
  destruct (Nat.ltb_spec (length v) 10); [lia|].
  destruct (Nat.ltb_spec 500 (length v)); [lia|done].
Qed.

(** X12.  A text that passes validation is the text sent with the
    whitespace at both ends removed: it is not empty and neither begins
    nor ends with whitespace.  The length bounds hold of the text as
    sent, so the text kept has at most 500 characters but may have fewer
    than 10. *)
Theorem accepted_text v v' :
  validate_joke_text v = Valid v' →
  v' = strip v ∧
  (10 ≤ length v ≤ 500)%nat ∧
  (1 ≤ length v' ≤ length v)%nat ∧
  (∀ c, head v' = Some c → isspace c = false) ∧
  (∀ c, last v' = Some c → isspace c = false).
Proof.
  unfold validate_joke_text.
  destruct (Nat.ltb_spec (length v) 10); [done|].
  destruct (Nat.ltb_spec 500 (length v)); [done|].
  unfold sanitize_text. destruct (strip v) as [|c0 w] eqn:E; [done|].
  intros [= <-]. rewrite <- E.
  split; [done|]. split; [lia|]. split.
  - pose proof (strip_length v). rewrite E in *. cbn in *. lia.
  - apply strip_ends.
Qed.

Lemma accepted_text_witness :
  strip (of_ascii "  Chuck Norris can divide by zero. ")
  = of_ascii "Chuck Norris can divide by zero.".
Proof.
  symmetry.
  apply (accepted_text (of_ascii "  Chuck Norris can divide by zero. ")).
  reflexivity.
Defined.

(** X13.  Validation rejects a text of fewer than 10 or more than 500
    characters as sent, and a text of whitespace only; a text within the
    bounds that neither begins nor ends with whitespace is accepted as it
    is. *)
Theorem rejected_and_clean_text v :
  ((length v < 10)%nat → validate_joke_text v = Invalid "string_too_short") ∧
  ((500 < length v)%nat → validate_joke_text v = Invalid "string_too_long") ∧
  ((10 ≤ length v ≤ 500)%nat → Forall (fun c => isspace c = true) v →
     validate_joke_text v = Invalid "value_error") ∧
  ((10 ≤ length v ≤ 500)%nat →
     (∀ c, head v = Some c → isspace c = false) →
     (∀ c, last v = Some c → isspace c = false) →
     validate_joke_text v = Valid v).
Proof.
  split; [|split; [|split]].
  - intros Hlt. unfold validate_joke_text.
    by destruct (Nat.ltb_spec (length v) 10); [|lia].
  - intros Hgt. unfold validate_joke_text.
    destruct (Nat.ltb_spec (length v) 10); [lia|].
    by destruct (Nat.ltb_spec 500 (length v)); [|lia].
  - intros Hr Hsp. rewrite validate_in_range by done.
    unfold sanitize_text, strip. by rewrite (lstrip_spaces v Hsp).
  - intros Hr Hh Hl. rewrite validate_in_range by done.
    unfold sanitize_text, strip.
    rewrite (lstrip_clean v Hh), lstrip_clean, reverse_involutive.
    + destruct v; [cbn in Hr; lia|done].
    + intros c. rewrite head_reverse. apply Hl.
Qed.

Lemma rejected_and_clean_text_witness :
  validate_joke_text (of_ascii "Short") = Invalid "string_too_short" ∧
  validate_joke_text (of_ascii "          ") = Invalid "value_error" ∧
  validate_joke_text (of_ascii "Chuck Norris can divide by zero.")
    = Valid (of_ascii "Chuck Norris can divide by zero.").
Proof.
  split; [|split].
  - apply (rejected_and_clean_text (of_ascii "Short")). cbn. lia.
  - apply (rejected_and_clean_text (of_ascii "          ")).
    + cbn. lia.
    + repeat constructor.
  - apply (rejected_and_clean_text (of_ascii "Chuck Norris can divide by zero.")).
    + cbn. lia.
    + intros c [= <-]. reflexivity.
    + intros c [= <-]. reflexivity.
Defined.

End SchemasProps.

(** ** The endpoints *)
Module MainProps.
Import Auth Middleware Schemas Main.

Implicit Types (db : list Joke) (keys : list APIKey) (j : Joke).

(** *** Jokes *)

Lemma get_joke_by_id_Return i db j :
  get_joke_by_id i db = Return j → j ∈ db ∧ joke_id j = i.
Proof.
  unfold get_joke_by_id.
  destruct (filter _ db) as [|j' l] eqn:E; [done|]. cbn. intros [= <-].
  assert (Hj : j' ∈ filter (fun j => joke_id j = i) db) by (rewrite E; left).
  by apply list_elem_of_filter in Hj as [? ?].
Qed.

Lemma get_joke_by_id_missing i db :
  (∀ j, j ∈ db → joke_id j ≠ i) →
  get_joke_by_id i db =
    Raise (HTTPException 404 ("Joke with id " +:+ pretty i +:+ " not found.")).
Proof.
  intros Hno. unfold get_joke_by_id.
  destruct (filter _ db) as [|j' l] eqn:E; [done|].
  assert (Hj : j' ∈ filter (fun j => joke_id j = i) db) by (rewrite E; left).
  apply list_elem_of_filter in Hj as [Hid Hin]. by destruct (Hno j' Hin).
Qed.

Lemma get_joke_by_id_unique db j :
  NoDup (joke_id <$> db) → j ∈ db → get_joke_by_id (joke_id j) db = Return j.
Proof.
  unfold get_joke_by_id. induction db as [|r db IH]; intros Hnd Hin.
  - by apply elem_of_nil in Hin.
  - rewrite fmap_cons in Hnd. apply NoDup_cons in Hnd as [Hr Hnd].
    apply elem_of_cons in Hin as [->|Hin].
    + by rewrite filter_cons_True.
    + rewrite filter_cons_False; [by apply IH|].
      intros E. apply Hr. rewrite E. apply list_elem_of_fmap. by exists j.
Qed.

Lemma get_joke_by_id_snoc i db row :
  joke_id row ≠ i → get_joke_by_id i (db ++ [row]) = get_joke_by_id i db.
Proof.
  intros Hne. unfold get_joke_by_id.
  rewrite filter_app, filter_cons_False, filter_nil, app_nil_r by done.
  reflexivity.
Qed.

(** X14.  For an id within the database's integers, [get_joke_by_id]
    returns a row of the table with the id asked for; it answers 404,
    naming the id, when no row has it; and with ids unique the row that
    has the id is the one returned. *)
Theorem get_joke_by_id_outcomes i db :
  int64 i →
  (∀ j, get_joke_by_id i db = Return j → j ∈ db ∧ joke_id j = i) ∧
  ((∀ j, j ∈ db → joke_id j ≠ i) →
     get_joke_by_id i db =
       Raise (HTTPException 404 ("Joke with id " +:+ pretty i +:+ " not found."))) ∧
  (NoDup (joke_id <$> db) →
     ∀ j, j ∈ db → joke_id j = i → get_joke_by_id i db = Return j).
Proof.
  intros _.
  split; [apply get_joke_by_id_Return|].
  split; [apply get_joke_by_id_missing|].
  intros Hnd j Hj <-. by apply get_joke_by_id_unique.
Qed.

Lemma get_joke_by_id_outcomes_witness :
  get_joke_by_id 9999 [joke_row 1 "a"; joke_row 2 "b"]
    = Raise (HTTPException 404 "Joke with id 9999 not found.") ∧
  get_joke_by_id 2 [joke_row 1 "a"; joke_row 2 "b"] = Return (joke_row 2 "b").
Proof.
  split.
  - apply (get_joke_by_id_outcomes 9999 [joke_row 1 "a"; joke_row 2 "b"]).
    + unfold int64. lia.
    + intros j Hj. apply elem_of_cons in Hj as [->|Hj]; [discriminate|].
      apply list_elem_of_singleton in Hj as ->. discriminate.
  - apply (get_joke_by_id_outcomes 2 [joke_row 1 "a"; joke_row 2 "b"]).
    + unfold int64. lia.
    + cbn. apply NoDup_cons. split; [|apply NoDup_singleton].
      intros H. apply list_elem_of_singleton in H. discriminate H.
    + right. left.
    + reflexivity.
Defined.

(** *** Pagination *)

Lemma StronglySorted_take_drop {A} (R : relation A) (l : list A) n m :
  StronglySorted R l → StronglySorted R (take n (drop m l)).
Proof.
  intros Hs.
  rewrite <- (take_drop m l) in Hs. apply StronglySorted_app in Hs as (_ & _ & Hs).
  rewrite <- (take_drop n (drop m l)) in Hs.
  by apply StronglySorted_app in Hs as (_ & Hs & _).
Qed.

Lemma page_offset (p pp : Z) :
  (1 ≤ p)%Z → (1 ≤ pp)%Z →
  Z.to_nat ((p - 1) * pp) = (Z.to_nat (p - 1) * Z.to_nat pp)%nat.
Proof. intros. rewrite Z2Nat.inj_mul; lia. Qed.

(** X15.  A page of [list_jokes], for a page of at least 1, a page size
    from 1 to 100 and an offset within the database's integers: the total
    is the size of the table whatever the page; the page holds the rows
    after the first [(page-1)*per_page] in the order of their ids, at most
    [per_page] of them and exactly [per_page] while the table goes on; a
    page beyond the end is empty. *)
Theorem list_jokes_page (p pp : Z) db :
  (1 ≤ p)%Z → (1 ≤ pp ≤ 100)%Z → int64 ((p - 1) * pp) →
  let r := list_jokes p pp db in
  total r = Z.of_nat (length db) ∧
  length (jokes r)
    = Nat.min (Z.to_nat pp) (length db - Z.to_nat (p - 1) * Z.to_nat pp) ∧
  StronglySorted id_le (jokes r) ∧
  (∀ j, j ∈ jokes r → j ∈ db) ∧
  ((length db ≤ Z.to_nat (p - 1) * Z.to_nat pp)%nat → jokes r = []).
Proof.
  intros Hp [Hpp _] _ r. subst r. unfold list_jokes. cbn [total jokes].
  rewrite page_offset by done.
  assert (Hlen : length (order_by_id db) = length db).
  { unfold order_by_id. by rewrite merge_sort_Permutation. }
  split; [done|]. split; [|split; [|split]].
  - by rewrite length_take, length_drop, Hlen.
  - apply StronglySorted_take_drop. unfold order_by_id.
    apply StronglySorted_merge_sort; apply _.
  - intros j Hj. apply subseteq_take, subseteq_drop in Hj.
    unfold order_by_id in Hj. by rewrite merge_sort_Permutation in Hj.
  - intros Hend. rewrite drop_ge by lia. by rewrite take_nil.
Qed.

Lemma list_jokes_page_witness :
  jokes (list_jokes 2 2 [joke_row 3 "c"; joke_row 1 "a"; joke_row 2 "b"]) = [joke_row 3 "c"] ∧
  jokes (list_jokes 3 2 [joke_row 3 "c"; joke_row 1 "a"; joke_row 2 "b"]) = [].
Proof.
  split; [reflexivity|].
  apply (list_jokes_page 3 2 [joke_row 3 "c"; joke_row 1 "a"; joke_row 2 "b"]);
    [lia|lia|unfold int64; lia|cbn; lia].
Defined.

Lemma chunks_take {A} (l : list A) m n :
  concat ((fun i => take m (drop (i * m) l)) <$> seq 0 n) = take (n * m) l.
Proof.
  induction n as [|n IH]; [by rewrite take_0|].
  rewrite seq_S, fmap_app, concat_app, IH. cbn.
  rewrite app_nil_r, take_take_drop. f_equal. lia.
Qed.

(** X16.  The pages of a table, taken in order until they reach its size,
    put together give every row exactly once, in the order of the ids. *)
Theorem list_jokes_pages_cover (pp : Z) (n : nat) db :
  (1 ≤ pp)%Z → (length db ≤ n * Z.to_nat pp)%nat →
  concat ((fun p => jokes (list_jokes (Z.of_nat p) pp db)) <$> seq 1 n)
    = order_by_id db ∧
  order_by_id db ≡ₚ db ∧
  StronglySorted id_le (order_by_id db).
Proof.
  intros Hpp Hn. split; [|split].
  - rewrite <- fmap_S_seq, <- list_fmap_compose.
    rewrite (list_fmap_ext _ (fun i => take (Z.to_nat pp)
                                        (drop (i * Z.to_nat pp) (order_by_id db)))).
    + rewrite chunks_take, take_ge; [done|].
      unfold order_by_id. by rewrite merge_sort_Permutation.
    + intros _ i _. cbn. unfold list_jokes. cbn [jokes].
      rewrite page_offset by lia. do 3 f_equal. lia.
  - apply merge_sort_Permutation.
  - apply StronglySorted_merge_sort; apply _.
Qed.

Lemma list_jokes_pages_cover_witness :
  jokes (list_jokes 1 2 [joke_row 3 "c"; joke_row 1 "a"; joke_row 2 "b"])
  ++ jokes (list_jokes 2 2 [joke_row 3 "c"; joke_row 1 "a"; joke_row 2 "b"])
  = [joke_row 1 "a"; joke_row 2 "b"; joke_row 3 "c"].
Proof.
  destruct (list_jokes_pages_cover 2 2 [joke_row 3 "c"; joke_row 1 "a"; joke_row 2 "b"])
    as [H _]; [lia|cbn; lia|].
  cbn [seq fmap list_fmap concat] in H. rewrite app_nil_r in H.
  transitivity (order_by_id [joke_row 3 "c"; joke_row 1 "a"; joke_row 2 "b"]);
    [exact H|reflexivity].
Defined.

(** *** Writing *)

Section Endpoints.

Variable sha256_hexdigest : string -> string.

Abbreviation verify := (verify_api_key sha256_hexdigest).
Abbreviation hash := (hash_api_key sha256_hexdigest).

Lemma create_joke_new api_key key text' new_id now keys db :
  verify api_key keys = Return key →
  text' ∉ joke_text <$> db →
  table (create_joke sha256_hexdigest api_key text' new_id now keys db)
    = db ++ [{| joke_id := new_id; joke_text := text'; joke_created_at := now |}] ∧
  outcome (create_joke sha256_hexdigest api_key text' new_id now keys db)
    = Return {| joke_id := new_id; joke_text := text'; joke_created_at := now |}.
Proof.
  intros Hkey Hnew. unfold create_joke. rewrite Hkey.
  by rewrite decide_False.
Qed.

(** X17.  A joke posted with a valid credential and a text not yet in
    the table is stored and can be read back: the table gains the one row,
    [get_joke_by_id] of its id returns it, every other id reads as before,
    the total grows by one, and texts and ids stay unique. *)
Theorem create_joke_round_trip api_key key text' new_id now keys db :
  verify api_key keys = Return key →
  text' ∉ joke_text <$> db →
  new_id ∉ joke_id <$> db →
  let e := create_joke sha256_hexdigest api_key text' new_id now keys db in
  let row := {| joke_id := new_id; joke_text := text'; joke_created_at := now |} in
  table e = db ++ [row] ∧
  outcome e = Return row ∧
  get_joke_by_id new_id (table e) = Return row ∧
  (∀ i, i ≠ new_id → get_joke_by_id i (table e) = get_joke_by_id i db) ∧
  (∀ p pp, total (list_jokes p pp (table e)) = (total (list_jokes p pp db) + 1)%Z) ∧
  (NoDup (joke_text <$> db) → NoDup (joke_text <$> table e)) ∧
  (NoDup (joke_id <$> db) → NoDup (joke_id <$> table e)).
Proof.
  intros Hkey Hnew Hid e row. subst e.
  destruct (create_joke_new _ _ _ new_id now _ _ Hkey Hnew) as [-> ->].
  fold row. split; [done|]. split; [done|]. split; [|split; [|split; [|split]]].
  - unfold get_joke_by_id. rewrite filter_app.
    assert (filter (fun j => joke_id j = new_id) db = []) as ->.
    { destruct (filter _ db) as [|j l] eqn:E; [done|].
      assert (Hj : j ∈ filter (fun j => joke_id j = new_id) db) by (rewrite E; left).
      apply list_elem_of_filter in Hj as [Hj Hin]. destruct Hid.
      rewrite <- Hj. apply list_elem_of_fmap. by exists j. }
    by rewrite filter_cons_True.
  - intros i Hi. by apply get_joke_by_id_snoc.
  - intros p pp. unfold list_jokes. cbn [total]. rewrite length_app. cbn. lia.
  - intros Hnd. rewrite fmap_app. apply NoDup_app. split; [done|]. split.
    + intros x Hx Hin. apply list_elem_of_singleton in Hin. by subst x.
    + apply NoDup_singleton.
  - intros Hnd. rewrite fmap_app. apply NoDup_app. split; [done|]. split.
    + intros x Hx Hin. apply list_elem_of_singleton in Hin. by subst x.
    + apply NoDup_singleton.
Qed.

(** X18.  [create_joke] never removes or changes a row.  Whenever it
    fails the table is as it was and nothing is logged: a credential that
    does not verify gives the exception of [verify_api_key], before the
    text is looked at, and a text already in the table gives 409. *)
Theorem create_joke_keeps_rows api_key text' new_id now keys db :
  let e := create_joke sha256_hexdigest api_key text' new_id now keys db in
  db `prefix_of` table e ∧
  (∀ x, outcome e = Raise x → table e = db ∧ logged e = []) ∧
  (∀ x, verify api_key keys = Raise x → outcome e = Raise x) ∧
  (∀ key, verify api_key keys = Return key → text' ∈ joke_text <$> db →
     outcome e = Raise (HTTPException 409 "This joke already exists.")).
Proof.
  intros e. subst e. unfold create_joke.
  destruct (verify api_key keys) as [key|x0] eqn:Hv.
  - destruct (decide (text' ∈ joke_text <$> db)) as [Hin|Hnew]; cbn.
    + split; [done|]. split; [done|]. split; [done|]. done.
    + split; [by apply prefix_app_r|]. split; [done|]. split; [done|].
      intros key' _ Hin. done.
  - cbn. split; [done|]. split; [done|]. split; [by intros x [= ->]|done].
Qed.

(** *** Minting credentials *)

Lemma generate_api_key_nonempty token : generate_api_key token ≠ "".
Proof. discriminate. Qed.

Lemma verify_some key keys :
  key ≠ "" →
  verify (Some key) keys =
    match query_first keys (hash key) with
    | None => Raise (HTTPException 403 "Invalid or deactivated API key.")
    | Some db_key => Return db_key
    end.
Proof. destruct key; [done|reflexivity]. Qed.

Lemma query_first_snoc keys row h :
  query_first (keys ++ [row]) h =
    match query_first keys h with
    | Some r => Some r
    | None => if decide (key_hash row = h ∧ is_active row = true)
              then Some row else None
    end.
Proof.
  unfold query_first. rewrite filter_app, head_app.
  destruct (head (filter _ keys)); [done|].
  destruct (decide (key_hash row = h ∧ is_active row = true)).
  - by rewrite filter_cons_True.
  - by rewrite filter_cons_False.
Qed.

Lemma query_first_absent keys h :
  h ∉ key_hash <$> keys → query_first keys h = None.
Proof.
  intros Hno. unfold query_first.
  destruct (filter _ keys) as [|r l] eqn:E; [done|].
  assert (Hr : r ∈ filter (fun k => key_hash k = h ∧ is_active k = true) keys)
    by (rewrite E; left).
  apply list_elem_of_filter in Hr as [[Hh _] Hin]. destruct Hno.
  rewrite <- Hh. apply list_elem_of_fmap. by exists r.
Qed.

(** X19.  A minted credential verifies: when the admin gate lets the call
    through and the fingerprint of the new key is not in the table, the
    table gains one active row under the given name, the response carries
    the raw key, [verify_api_key] of that key returns the new row, and
    fingerprints stay unique. *)
Theorem minted_key_verifies ADMIN_SECRET api_key v payload_name token new_id now keys :
  verify_admin_secret ADMIN_SECRET api_key = Return v →
  hash (generate_api_key token) ∉ key_hash <$> keys →
  let e := create_api_key sha256_hexdigest ADMIN_SECRET api_key payload_name token new_id now keys in
  let row := {| id := new_id; key_hash := hash (generate_api_key token);
                name := payload_name; is_active := true; created_at := now |} in
  table e = keys ++ [row] ∧
  (∃ response, outcome e = Minted response ∧
               Schemas.api_key response = generate_api_key token ∧
               response_name response = payload_name) ∧
  verify (Some (generate_api_key token)) (table e) = Return row ∧
  (unique_key_hash keys → unique_key_hash (table e)).
Proof.
  intros Hadmin Hfresh e row. subst e. unfold create_api_key.
  rewrite Hadmin. cbv zeta. cbn [key_hash]. rewrite decide_False by done.
  cbn [table outcome]. fold row.
  split; [done|]. split; [by eexists|]. split.
  - rewrite verify_some by apply generate_api_key_nonempty.
    rewrite query_first_snoc, query_first_absent by done.
    by rewrite decide_True.
  - unfold unique_key_hash. intros Hnd. rewrite fmap_app.
    apply NoDup_app. split; [done|]. split; [|apply NoDup_singleton].
    intros x Hx Hin. apply list_elem_of_singleton in Hin. by subst x.
Qed.

(** X20.  [create_api_key] leaves the credentials there are alone,
    however it ends: the old rows stay, and any presented secret whose
    fingerprint is not that of the new key verifies after the call exactly
    as before; when the call does not mint, the table is unchanged and
    nothing is logged. *)
Theorem minting_keeps_credentials ADMIN_SECRET api_key payload_name token new_id now keys :
  let e := create_api_key sha256_hexdigest ADMIN_SECRET api_key payload_name token new_id now keys in
  keys `prefix_of` table e ∧
  (∀ presented,
     (∀ key, presented = Some key → hash key ≠ hash (generate_api_key token)) →
     verify presented (table e) = verify presented keys) ∧
  ((∀ response, outcome e ≠ Minted response) → table e = keys ∧ logged e = []) ∧
  (∀ x, verify_admin_secret ADMIN_SECRET api_key = Raise x → outcome e = Refused x).
Proof.
  intros e. subst e. unfold create_api_key.
  destruct (verify_admin_secret ADMIN_SECRET api_key) as [v|x0] eqn:Hadmin.
  - cbv zeta. cbn [key_hash].
    destruct (decide (hash (generate_api_key token) ∈ key_hash <$> keys)); cbn.
    + split; [done|]. split; [done|]. split; [done|]. done.
    + split; [by apply prefix_app_r|]. split; [|split].
      * intros [key|] Hother; [|done].
        destruct (decide (key = "")) as [->|Hk]; [done|].
        rewrite !verify_some by done. rewrite query_first_snoc.
        destruct (query_first keys (hash key)); [done|].
        rewrite decide_False; [done|]. cbn. intros [Hh _].
        by apply (Hother key).
      * intros Hno. by destruct (Hno _ eq_refl).
      * done.
  - cbn. split; [done|]. split; [done|]. split; [done|]. by intros x [= ->].
Qed.

End Endpoints.

Lemma create_joke_round_trip_witness :
  let e := create_joke (fun s => s) (Some "cnj_live")
             (of_ascii "Chuck Norris can divide by zero.")
             2 0 [key_row 1 "cnj_live" true] [joke_row 1 "a"] in
  get_joke_by_id 2 (table e)
  = Return {| joke_id := 2;
              joke_text := of_ascii "Chuck Norris can divide by zero.";
              joke_created_at := 0 |}.
Proof.
  apply (create_joke_round_trip (fun s => s) (Some "cnj_live")
           (key_row 1 "cnj_live" true)
           (of_ascii "Chuck Norris can divide by zero.") 2 0
           [key_row 1 "cnj_live" true] [joke_row 1 "a"]).
  - reflexivity.
  - cbn. intros H. apply list_elem_of_singleton in H. discriminate H.
  - cbn. intros H. apply list_elem_of_singleton in H. discriminate H.
Defined.

Lemma create_joke_keeps_rows_witness :
  let e := create_joke (fun s => s) (Some "cnj_bad") (of_ascii "Chuck Norris can divide by zero.")
             7 0 [key_row 1 "cnj_live" true] [joke_row 1 "a"] in
  outcome e = Raise (HTTPException 403 "Invalid or deactivated API key.") ∧
  table e = [joke_row 1 "a"].
Proof.
  intros e.
  destruct (create_joke_keeps_rows (fun s => s) (Some "cnj_bad")
              (of_ascii "Chuck Norris can divide by zero.") 7 0
              [key_row 1 "cnj_live" true] [joke_row 1 "a"]) as (_ & Hfail & Hauth & _).
  fold e in Hfail, Hauth.
  assert (Hout : outcome e = Raise (HTTPException 403 "Invalid or deactivated API key."))
    by (apply Hauth; reflexivity).
  split; [exact Hout|]. by apply (Hfail _ Hout).
Defined.

Lemma minted_key_verifies_witness :
  verify_api_key (fun s => s) (Some "cnj_8pXk")
    (table (create_api_key (fun s => s) "test-admin-secret" (Some "test-admin-secret")
              "my-app" "8pXk" 2 0 [key_row 1 "cnj_live" true]))
  = Return {| id := 2; key_hash := "cnj_8pXk"; name := "my-app";
              is_active := true; created_at := 0 |}.
Proof.
  apply (minted_key_verifies (fun s => s) "test-admin-secret" (Some "test-admin-secret")
           "test-admin-secret" "my-app" "8pXk" 2 0 [key_row 1 "cnj_live" true]).
  - reflexivity.
  - cbn. intros H. apply list_elem_of_singleton in H. discriminate H.
Defined.

Lemma minting_keeps_credentials_witness :
  verify_api_key (fun s => s) (Some "cnj_live")
    (table (create_api_key (fun s => s) "test-admin-secret" (Some "test-admin-secret")
              "my-app" "8pXk" 2 0 [key_row 1 "cnj_live" true]))
  = Return (key_row 1 "cnj_live" true).
Proof.
  destruct (minting_keeps_credentials (fun s => s) "test-admin-secret"
              (Some "test-admin-secret") "my-app" "8pXk" 2 0
              [key_row 1 "cnj_live" true]) as (_ & Hsame & _).
  rewrite (Hsame (Some "cnj_live")); [reflexivity|].
  intros key [= <-]. discriminate.
Defined.

End MainProps.

(** ** More on the middleware *)
Module DispatchMore.
Import Middleware TrackerProps DispatchProps.

Implicit Types (d : gmap string (list Q)) (h : Headers).

#[local] Arguments _track_auth_failure : simpl never.
#[local] Arguments dispatch : simpl never.

Lemma serve_cons env request call_next requests d :
  serve ((env, request, call_next) :: requests) d =
    (fst (serve requests (fst (fst (dispatch env request call_next d)))),
     snd (fst (dispatch env request call_next d))
       :: snd (serve requests (fst (fst (dispatch env request call_next d))))).
Proof.
  cbn [serve].
  destruct (dispatch env request call_next d) as [[d1 logs] res]. cbn [fst snd].
  by destruct (serve requests d1).
Qed.

(** X21.  Rejected requests of one source drive the tracker exactly as
    its failures at the times of the requests: the map after the run is
    the map of [record_all], and each request logs its own warning
    followed by what the tracker's call logs. *)
Theorem serve_rejected ip requests : ∀ d,
  Forall (rejected ip) requests →
  let times := (fun r => time_now (fst (fst r))) <$> requests in
  fst (serve requests d) = fst (record_all ip times d) ∧
  Forall2 (fun logs alerts =>
             ∃ r, logs = r :: alerts ∧ levelname r = WARNING ∧
                  message r = "Authentication failure")
          (snd (serve requests d)) (snd (record_all ip times d)).
Proof.
  induction requests as [|[[env request] call_next] requests IH]; intros d Hall.
  - cbn. split; [done|constructor].
  - apply Forall_cons in Hall as [[Hip (response & Hcall & Hs)] Hall].
    cbn zeta. rewrite fmap_cons. cbn [fst].
    rewrite serve_cons, record_all_cons. cbn [fst snd].
    apply in_401_403_spec in Hs.
    rewrite (dispatch_auth_failure _ _ _ _ _ Hcall Hs), Hip. cbn [fst snd].
    destruct (IH (fst (_track_auth_failure (time_now env) ip d)) Hall)
      as [IH1 IH2].
    split; [exact IH1|]. constructor; [|exact IH2]. by eexists.
Qed.

Lemma serve_rejected_witness :
  fst (serve [(env0, request0, respond 403); (env0, request0, respond 401)] ∅)
  = fst (record_all "203.0.113.7, 10.0.0.1" [1000; 1000]%Q ∅).
Proof.
  apply (serve_rejected "203.0.113.7, 10.0.0.1"
           [(env0, request0, respond 403); (env0, request0, respond 401)] ∅).
  repeat constructor; by eexists.
Defined.

Lemma dispatch_let_through env request call_next d response :
  call_next (set_request_id request (uuid4 env)) = Return response →
  in_401_403 (status_code response) = false →
  ∃ lv msg ev,
    fst (dispatch env request call_next d)
    = (d, [request_record lv msg ev env request response]) ∧ lv ≠ CRITICAL.
Proof.
  intros Hcall Hs. rewrite (dispatch_returned _ _ _ _ _ Hcall). cbv zeta.
  rewrite Hs. cbn [fst].
  destruct (500 <=? status_code response)%Z; [by eexists _, _, _|].
  destruct (400 <=? status_code response)%Z; by eexists _, _, _.
Qed.

(** X22.  Requests answered with any status other than 401 and 403 never
    reach the tracker: a run of them leaves the map as it was, and each
    logs its one request record, none of them critical. *)
Theorem serve_let_through requests : ∀ d,
  Forall let_through requests →
  fst (serve requests d) = d ∧
  length (snd (serve requests d)) = length requests ∧
  Forall (fun logs => ∃ r, logs = [r] ∧ levelname r ≠ CRITICAL ∧
                           has_request_id r = true)
         (snd (serve requests d)).
Proof.
  induction requests as [|[[env request] call_next] requests IH]; intros d Hall.
  - cbn. split; [done|]. split; [done|constructor].
  - apply Forall_cons in Hall as [(response & Hcall & Hs) Hall].
    rewrite serve_cons. cbn [fst snd length].
    destruct (dispatch_let_through env request call_next d _ Hcall Hs)
      as (lv & msg & ev & -> & Hlv).
    cbn [fst snd]. destruct (IH d Hall) as (IH1 & IH2 & IH3).
    split; [exact IH1|]. split; [by rewrite IH2|].
    constructor; [|exact IH3]. by eexists.
Qed.

Lemma serve_let_through_witness :
  fst (serve [(env0, request0, respond 200); (env0, request0, respond 404);
              (env0, request0, respond 500)] hot_map) = hot_map.
Proof.
  apply (serve_let_through
           [(env0, request0, respond 200); (env0, request0, respond 404);
            (env0, request0, respond 500)] hot_map).
  repeat constructor; by eexists.
Defined.

(** *** The correlation header *)

Lemma filter_filter_out (h : list (string * string)) k :
  filter (fun kv => fst kv = k) (filter (fun kv => fst kv ≠ k) h) = [].
Proof.
  induction h as [|kv h IH]; [done|].
  rewrite filter_cons. case_decide; [|exact IH].
  rewrite filter_cons. case_decide; [done|exact IH].
Qed.

Lemma filter_filter_same (h : list (string * string)) k :
  filter (fun kv => fst kv ≠ k) (filter (fun kv => fst kv ≠ k) h)
  = filter (fun kv => fst kv ≠ k) h.
Proof.
  induction h as [|kv h IH]; [done|].
  rewrite filter_cons. case_decide; [|exact IH].
  rewrite filter_cons. case_decide; [by rewrite IH|done].
Qed.

Lemma replace_first_filters k v (h : list (string * string)) :
  existsb (fun kv => String.eqb (fst kv) k) h = true →
  filter (fun kv => fst kv = k) (replace_first k v h) = [(k, v)] ∧
  filter (fun kv => fst kv ≠ k) (replace_first k v h)
  = filter (fun kv => fst kv ≠ k) h.
Proof.
  induction h as [|kv h IH]; [done|]. cbn [existsb replace_first].
  unfold Headers in *.
  destruct (String.eqb_spec (fst kv) k) as [E|E].
  - intros _. split.
    + rewrite filter_cons. case_decide; [|done]. by rewrite filter_filter_out.
    + rewrite filter_cons. case_decide; [done|].
      rewrite filter_cons. case_decide; [done|].
      apply filter_filter_same.
  - cbn [orb]. intros Hex. destruct (IH Hex) as [IH1 IH2]. split.
    + rewrite filter_cons. case_decide; [done|exact IH1].
    + rewrite !filter_cons.
      case_decide; [by rewrite IH2|done].
Qed.

Lemma headers_set_filters (h : list (string * string)) key v :
  filter (fun kv => fst kv = lower key) (headers_set h key v) = [(lower key, v)] ∧
  filter (fun kv => fst kv ≠ lower key) (headers_set h key v)
  = filter (fun kv => fst kv ≠ lower key) h.
Proof.
  unfold headers_set. cbv zeta. unfold Headers in *.
  destruct (existsb _ h) eqn:E; [by apply replace_first_filters|].
  rewrite !filter_app. split.
  - assert (filter (fun kv => fst kv = lower key) h = []) as ->.
    { induction h as [|kv h IH]; [done|].
      cbn [existsb] in E. apply orb_false_iff in E as [Ek E].
      apply String.eqb_neq in Ek.
      rewrite filter_cons. case_decide; [done|by apply IH]. }
    rewrite filter_cons. by case_decide.
  - rewrite filter_cons. case_decide; [done|].
    by rewrite filter_nil, app_nil_r.
Qed.

(** X23.  The response of the middleware carries the header
    [x-request-id] exactly once, with the correlation id, whatever the
    handler had put under that name, and every other header of the
    handler's response in its place. *)
Theorem one_request_id_header env request call_next d response :
  call_next (set_request_id request (uuid4 env)) = Return response →
  ∃ response',
    snd (dispatch env request call_next d) = Return response' ∧
    filter (fun kv => fst kv = "x-request-id") (response_headers response')
      = [("x-request-id", uuid4 env)] ∧
    filter (fun kv => fst kv ≠ "x-request-id") (response_headers response')
      = filter (fun kv => fst kv ≠ "x-request-id") (response_headers response).
Proof.
  intros Hcall. rewrite (dispatch_returned _ _ _ _ _ Hcall). cbn [snd].
  eexists. split; [reflexivity|]. cbn [response_headers set_response_header].
  apply (headers_set_filters (response_headers response) "X-Request-ID").
Qed.

Lemma one_request_id_header_witness :
  ∃ response',
    snd (dispatch env0 request0
           (fun _ => Return {| status_code := 200;
                               response_headers :=
                                 [("x-request-id", "spoofed"); ("content-type", "text/plain");
                                  ("x-request-id", "again")];
                               body := "" |}) ∅)
    = Return response' ∧
    filter (fun kv => fst kv = "x-request-id") (response_headers response')
      = [("x-request-id", uuid4 env0)].
Proof.
  destruct (one_request_id_header env0 request0
              (fun _ => Return {| status_code := 200;
                                  response_headers :=
                                    [("x-request-id", "spoofed"); ("content-type", "text/plain");
                                     ("x-request-id", "again")];
                                  body := "" |}) ∅ _ eq_refl)
    as (response' & Hres & Honce & _).
  by exists response'.
Defined.

End DispatchMore.
